(** * BlockChainAnalyzer: the transaction-graph construction engine

    A shallow embedding of [BC_Analyzer.py] (class [BlockchainAnalyzer] and
    [main]) and the properties of its recursive traversal, of its entry point
    and of the node and edge entries of its HTML export.

    Conventions.
    - The three mutable fields of the analyzer ([G], [wallet_balances],
      [visited_transactions]) form the record [analyzer]; every method is a
      function from the state before to an [outcome] and the state after, so
      the state left behind by a raised exception stays observable.
    - [self.conn] is assigned once in [__init__] and only read afterwards; it is
      a parameter ([conn]) of the methods.  A connection is the contents of the
      three tables plus an oracle telling which statements raise
      [sqlite3.Error]; the statements executed so far are kept in the ghost
      field [executed], whose length numbers the next statement.
    - Python floats are IEEE-754 binary64 numbers: Rocq's primitive floats.
    - What the standard [datetime] module, [float(str)] and [int(str)] compute
      is not code of this repository: these functions form the interface
      [pylib].
    - networkx's [DiGraph] is modelled from its documented behaviour: one
      attribute dictionary per node, one per ordered pair of nodes, and
      [add_edge] raising [ValueError] for the node [None].
    - The recursion of [_process_transaction] is driven by a [fuel] counter;
      [Starved] is the outcome of running out of it.  CPython's own recursion
      limit is not modelled. *)

From Stdlib Require Import ZArith Ascii String List Floats.
From stdpp Require Import gmap strings list pretty.

Local Open Scope string_scope.

(** ** Python and SQLite values *)

(** The exceptions the code can meet. *)
Inductive exn : Set :=
  | SqliteError   (* sqlite3.Error *)
  | ValueError
  | TypeError
  | KeyError
  | RuntimeError.

(** A value read from a SQLite column, as the [sqlite3] module hands it to
    Python: [None], [int], [float] or [str]. *)
Inductive sqlval : Set :=
  | SqlNull
  | SqlInt (z : Z)
  | SqlReal (f : float)
  | SqlText (s : string).

(** [float(n)] for a Python [int]: the nearest binary64 number, ties to even. *)
Definition float_of_Z (z : Z) : float :=
  SF2Prim (binary_normalize prec emax z 0 false).

(** The nearest integer to [n / d] for [0 <= n] and [0 < d], ties to even. *)
Definition round_half_even (n d : Z) : Z :=
  let q := (n / d)%Z in
  let r := (n mod d)%Z in
  if (2 * r <? d)%Z then q
  else if (d <? 2 * r)%Z then (q + 1)%Z
  else if Z.even q then q else (q + 1)%Z.

(** [f"{x:.8f}"]: the decimal expansion of the exact value of [x], rounded to
    eight decimals. *)
Definition format_8f (x : float) : string :=
  match Prim2SF x with
  | S754_nan => "nan"
  | S754_infinity s => if s then "-inf" else "inf"
  | S754_zero s => (if s then "-" else "") ++ "0.00000000"
  | S754_finite s m e =>
      let n :=
        if (0 <=? e)%Z then (Z.pos m * 10 ^ 8 * 2 ^ e)%Z
        else round_half_even (Z.pos m * 10 ^ 8) (2 ^ (- e)) in
      let frac := pretty (n mod 10 ^ 8)%Z in
      (if s then "-" else "") ++ pretty (n / 10 ^ 8)%Z ++ "." ++
      String.concat "" (replicate (8 - String.length frac) "0") ++ frac
  end.

(** ** The ledger: three tables *)

Record transact_row : Set := {
  hash : string;
  time : sqlval;
  input_total : sqlval;
  output_total : sqlval
}.

Record input_row : Set := {
  in_transaction_hash : string;
  in_recipient : option string;
  in_value : sqlval;
  spending_transaction_hash : option string
}.

Record output_row : Set := {
  out_transaction_hash : string;
  out_recipient : option string;
  out_value : sqlval
}.

Record ledger : Set := {
  TRANSACT : list transact_row;
  INPUTS : list input_row;
  OUTPUTS : list output_row
}.

(** The statements the analyzer sends to the connection. *)
Inductive query : Set :=
  | SelectTransact (h : string)
  | SelectInputs (h : string)
  | SelectOutputs (h : string)
  | SelectSpending (recipient : option string)
  | SelectWallet (target : string).

Global Instance query_eq_dec : EqDecision query.
Proof. solve_decision. Defined.

(** A connection: the tables, and which statements (numbered from 0 in the
    order of execution) raise [sqlite3.Error]. *)
Record connection : Type := {
  db : ledger;
  sql_fails : nat -> bool
}.

(** [SELECT hash, time, input_total, output_total FROM TRANSACT WHERE hash = ?]
    followed by [fetchone()]. *)
Definition select_transact (l : ledger) (h : string) : option transact_row :=
  head (filter (λ r, hash r = h) (TRANSACT l)).

(** [SELECT recipient, value FROM INPUTS WHERE transaction_hash = ?]. *)
Definition select_inputs (l : ledger) (h : string) : list (option string * sqlval) :=
  (λ r, (in_recipient r, in_value r)) <$> filter (λ r, in_transaction_hash r = h) (INPUTS l).

(** [SELECT recipient, value FROM OUTPUTS WHERE transaction_hash = ?]. *)
Definition select_outputs (l : ledger) (h : string) : list (option string * sqlval) :=
  (λ r, (out_recipient r, out_value r)) <$> filter (λ r, out_transaction_hash r = h) (OUTPUTS l).

(** [SELECT spending_transaction_hash FROM INPUTS WHERE recipient = ? AND
    spending_transaction_hash IS NOT NULL].  A [NULL] parameter equals no
    recipient. *)
Definition select_spending (l : ledger) (recipient : option string) : list string :=
  match recipient with
  | None => []
  | Some addr =>
      omap spending_transaction_hash (filter (λ r, in_recipient r = Some addr) (INPUTS l))
  end.

(** The [UNION] of the transaction hashes of the input rows and of the output
    rows whose recipient is the target; [UNION] drops duplicate rows.  SQL
    leaves the order of the rows open; here it is the order of first
    occurrence. *)
Definition select_wallet (l : ledger) (target : string) : list string :=
  remove_dups
    ((in_transaction_hash <$> filter (λ r, in_recipient r = Some target) (INPUTS l)) ++
     (out_transaction_hash <$> filter (λ r, out_recipient r = Some target) (OUTPUTS l))).

(** ** networkx.DiGraph *)

Record edge_attrs : Set := {
  tx_id : string;
  value : sqlval;
  date : string
}.

(** The attribute dictionary of a node; [None] is an absent key. *)
Record node_attrs : Set := {
  balance : option float;
  label : option string
}.

Record DiGraph : Type := {
  nodes : gmap string node_attrs;
  adj : gmap (string * string) edge_attrs
}.

Definition empty_graph : DiGraph := {| nodes := ∅; adj := ∅ |}.

(** A node that is already present keeps its attributes. *)
Definition add_node (u : string) (g : DiGraph) : DiGraph :=
  match nodes g !! u with
  | Some _ => g
  | None => {| nodes := <[u := {| balance := None; label := None |}]> (nodes g);
               adj := adj g |}
  end.

(** [G.add_edge(u, v, tx_id=.., value=.., date=..)] for two strings: both
    nodes are added when absent, and the three attributes of the pair
    [(u, v)] are set, replacing those of an edge already there. *)
Definition add_edge (u v : string) (attr : edge_attrs) (g : DiGraph) : DiGraph :=
  let g := add_node v (add_node u g) in
  {| nodes := nodes g; adj := <[(u, v) := attr]> (adj g) |}.

(** ** The analyzer *)

Record analyzer : Type := {
  G : DiGraph;
  wallet_balances : gmap string float;
  visited_transactions : gset string;
  executed : list query   (* ghost: the statements sent to the connection *)
}.

(** The fields as [__init__] leaves them. *)
Definition new_analyzer : analyzer :=
  {| G := empty_graph; wallet_balances := ∅; visited_transactions := ∅; executed := [] |}.

Definition set_G (g : DiGraph) (a : analyzer) : analyzer :=
  {| G := g; wallet_balances := wallet_balances a;
     visited_transactions := visited_transactions a; executed := executed a |}.

(** [self.wallet_balances[wallet] = self.wallet_balances.get(wallet, 0.0) + amount] *)
Definition _update_wallet_balance (wallet : string) (amount : float) (a : analyzer) : analyzer :=
  {| G := G a;
     wallet_balances :=
       <[wallet := (default 0%float (wallet_balances a !! wallet) + amount)%float]>
         (wallet_balances a);
     visited_transactions := visited_transactions a; executed := executed a |}.

(** [self.visited_transactions.add(tx_hash)] *)
Definition mark_visited (tx_hash : string) (a : analyzer) : analyzer :=
  {| G := G a; wallet_balances := wallet_balances a;
     visited_transactions := {[tx_hash]} ∪ visited_transactions a;
     executed := executed a |}.

(** How a call ends. *)
Inductive outcome : Set :=
  | Returned
  | Raised (e : exn)
  | Starved.

(** A [for] loop whose body may raise: the first body that does not return
    ends the loop. *)
Fixpoint for_each {A : Type} (l : list A) (body : A -> analyzer -> outcome * analyzer)
    (a : analyzer) : outcome * analyzer :=
  match l with
  | [] => (Returned, a)
  | x :: l' =>
      match body x a with
      | (Returned, a') => for_each l' body a'
      | stop => stop
      end
  end.

(** ** What the Python standard library computes

    The functions of the standard library the analyzer calls, as an
    interface: the code is read against any implementation of it. *)
Class pylib : Type := {
  (** [datetime] objects. *)
  datetime : Type;
  (** [datetime.strptime(tx_time, '%Y-%m-%d %H:%M:%S')]; [None] when it raises. *)
  strptime_ymd_hms : sqlval -> option datetime;
  (** [datetime.fromtimestamp(int(tx_time))]; [None] when it raises. *)
  fromtimestamp_int : sqlval -> option datetime;
  (** [tx_datetime.strftime('%Y-%m-%d')]. *)
  strftime_ymd : datetime -> string;
  (** [float(s)] for a string; [None] when it raises [ValueError]. *)
  float_of_text : string -> option float;
  (** [int(s)] for a string; [None] when it raises [ValueError]. *)
  int_of_text : string -> option Z
}.

Section Analyzer.

Context {lib : pylib}.

(** [float(v)] for a value read from the database. *)
Definition py_float (v : sqlval) : exn + float :=
  match v with
  | SqlNull => inl TypeError
  | SqlInt z => inr (float_of_Z z)
  | SqlReal f => inr f
  | SqlText s =>
      match float_of_text s with
      | Some f => inr f
      | None => inl ValueError
      end
  end.

(** Lines 65-73: the two parse attempts, then the formatted date; [None] is
    the path that prints "Formato de fecha invalido" and returns. *)
Definition parse_tx_date (tx_time : sqlval) : option string :=
  match strptime_ymd_hms tx_time with
  | Some tx_datetime => Some (strftime_ymd tx_datetime)
  | None =>
      match fromtimestamp_int tx_time with
      | Some tx_datetime => Some (strftime_ymd tx_datetime)
      | None => None
      end
  end.

Section Methods.

(** *** The connection *)

Variable conn : connection.

(** [self.conn.execute(...)]: the statement is recorded, and the oracle says
    whether it raises [sqlite3.Error] ([true]) or yields its rows. *)
Definition execute (q : query) (a : analyzer) : bool * analyzer :=
  (sql_fails conn (length (executed a)),
   {| G := G a; wallet_balances := wallet_balances a;
      visited_transactions := visited_transactions a;
      executed := executed a ++ [q] |}).

(** Lines 75-89: both statements sit in one [try]; when the first raises the
    second is not executed. *)
Definition fetch_inputs_outputs (tx_hash : string) (a : analyzer)
    : option (list (option string * sqlval) * list (option string * sqlval)) * analyzer :=
  match execute (SelectInputs tx_hash) a with
  | (true, a) => (None, a)
  | (false, a) =>
      match execute (SelectOutputs tx_hash) a with
      | (true, a) => (None, a)
      | (false, a) =>
          (Some (select_inputs (db conn) tx_hash, select_outputs (db conn) tx_hash), a)
      end
  end.

(** *** Edge emission (lines 91-101) *)

(** The body of the inner loop.  [add_edge] raises [ValueError] for the node
    [None]: for the sender before anything is added, for the receiver after
    the sender has been added as a node.  [float] raises for a value that is
    [None] or is text that is no number; by then the edge is in the graph. *)
Definition emit_pair (tx_hash tx_date : string) (inp out : option string * sqlval)
    (a : analyzer) : outcome * analyzer :=
  let '(sender, input_value) := inp in
  let '(receiver, output_value) := out in
  match sender, receiver with
  | None, _ => (Raised ValueError, a)
  | Some sender, None => (Raised ValueError, set_G (add_node sender (G a)) a)
  | Some sender, Some receiver =>
      let a :=
        set_G (add_edge sender receiver
                 {| tx_id := tx_hash; value := output_value; date := tx_date |} (G a)) a in
      match py_float input_value with
      | inl e => (Raised e, a)
      | inr x =>
          let a := _update_wallet_balance sender (- x)%float a in
          match py_float output_value with
          | inl e => (Raised e, a)
          | inr y => (Returned, _update_wallet_balance receiver y a)
          end
      end
  end.

(** The two nested loops. *)
Definition emit_edges (tx_hash tx_date : string)
    (inputs outputs : list (option string * sqlval)) : analyzer -> outcome * analyzer :=
  for_each inputs (λ inp, for_each outputs (λ out, emit_pair tx_hash tx_date inp out)).

(** *** The recursive traversal (lines 43-117) *)

Fixpoint _process_transaction (fuel : nat) (tx_hash : string) (current_depth max_depth : Z)
    (a : analyzer) {struct fuel} : outcome * analyzer :=
  match fuel with
  | O => (Starved, a)
  | S fuel' =>
      if decide (tx_hash ∈ visited_transactions a) then (Returned, a)
      else
        let a := mark_visited tx_hash a in
        match execute (SelectTransact tx_hash) a with
        | (true, a) => (Returned, a)
        | (false, a) =>
            match select_transact (db conn) tx_hash with
            | None => (Returned, a)
            | Some tx_data =>
                let tx_hash := hash tx_data in
                match parse_tx_date (time tx_data) with
                | None => (Returned, a)
                | Some tx_date =>
                    match fetch_inputs_outputs tx_hash a with
                    | (None, a) => (Returned, a)
                    | (Some (inputs, outputs), a) =>
                        match emit_edges tx_hash tx_date inputs outputs a with
                        | (Returned, a) =>
                            if ((max_depth =? 0) || (current_depth <? max_depth))%Z then
                              let next_depth := (current_depth + 1)%Z in
                              for_each outputs
                                (λ output a,
                                   match execute (SelectSpending (fst output)) a with
                                   | (true, a) => (Returned, a)
                                   | (false, a) =>
                                       for_each (select_spending (db conn) (fst output))
                                         (λ next_tx,
                                            _process_transaction fuel' next_tx next_depth
                                              max_depth) a
                                   end) a
                            else (Returned, a)
                        | stop => stop
                        end
                    end
                end
            end
        end
  end.

(** *** The public entry point (lines 119-144) *)

(** [f"{node[:6]}...{node[-4:]}\nBalance: {balance:.8f} BTC"] *)
Definition node_label (node : string) (bal : float) : string :=
  substring 0 6 node ++ "..." ++ substring (String.length node - 4) 4 node ++
  String (Ascii.ascii_of_nat 10) "Balance: " ++ format_8f bal ++ " BTC".

(** Lines 140-144: every node receives its balance and its label. *)
Definition assign_node_attributes (a : analyzer) : analyzer :=
  set_G
    {| nodes :=
         map_imap (λ node _,
           let bal := default 0%float (wallet_balances a !! node) in
           Some {| balance := Some bal; label := Some (node_label node bal) |})
           (nodes (G a));
       adj := adj (G a) |} a.

Definition build_graph (fuel : nat) (target : string) (max_depth : Z) (a : analyzer)
    : outcome * analyzer :=
  if decide (String.length target = 64) then
    match _process_transaction fuel target 1 max_depth a with
    | (Returned, a) => (Returned, assign_node_attributes a)
    | stop => stop
    end
  else
    match execute (SelectWallet target) a with
    | (true, a) => (Returned, a)
    | (false, a) =>
        match for_each (select_wallet (db conn) target)
                (λ tx_hash, _process_transaction fuel tx_hash 1 max_depth) a with
        | (Returned, a) => (Returned, assign_node_attributes a)
        | stop => stop
        end
    end.

End Methods.

(** *** [main] (lines 629-663) *)

(** The two keys of the [DEFAULT] section of [config.ini]; [None] is an
    absent key. *)
Record config : Set := {
  Target : option string;
  Depth : option string
}.

(** How [main] ends: with one of its four error messages, or after exporting
    the graph (GraphML always, HTML when the depth is below 3). *)
Inductive main_result : Type :=
  | ConfigError       (* except KeyError *)
  | InputError        (* except ValueError *)
  | DatabaseError     (* except sqlite3.Error *)
  | UnexpectedError   (* except Exception *)
  | Exported (a : analyzer) (html : bool)
  | OutOfFuel.

(** [connect] is what [sqlite3.connect('BC.db')] yields: [None] when it
    raises, which [__init__] turns into a [RuntimeError]. *)
Definition main (fuel : nat) (cfg : config) (connect : option connection) : main_result :=
  match Target cfg with
  | None => ConfigError
  | Some target =>
      match int_of_text (default "0" (Depth cfg)) with
      | None => InputError
      | Some max_depth =>
          if negb ((String.length target =? 34)%nat || (String.length target =? 62)%nat)
          then InputError
          else
            match connect with
            | None => UnexpectedError
            | Some conn =>
                match build_graph conn fuel target max_depth new_analyzer with
                | (Returned, a) => Exported a (negb (3 <=? max_depth)%Z)
                | (Raised KeyError, _) => ConfigError
                | (Raised ValueError, _) => InputError
                | (Raised SqliteError, _) => DatabaseError
                | (Raised _, _) => UnexpectedError
                | (Starved, _) => OutOfFuel
                end
            end
      end
  end.

End Analyzer.

(** ** A reading of [pylib] for the worked examples

    [sample_lib] agrees with CPython on the values the sample ledgers hold:
    times that are [NULL] (both parse attempts raise) or canonical
    ["YYYY-MM-DD HH:MM:SS"] strings with a year of 1000 or later, integer
    amounts, and depths written as plain decimal numbers.  It is not meant to
    be used on other values. *)

Definition digit (c : ascii) : option nat :=
  let n := nat_of_ascii c in
  if (48 <=? n)%nat && (n <=? 57)%nat then Some (n - 48) else None.

Fixpoint decimal_from (acc : nat) (s : string) : option nat :=
  match s with
  | EmptyString => Some acc
  | String c s' =>
      match digit c with
      | Some d => decimal_from (10 * acc + d) s'
      | None => None
      end
  end.

Definition decimal (s : string) : option nat :=
  match s with
  | EmptyString => None
  | _ => decimal_from 0 s
  end.

Definition days_in_month (y m : nat) : nat :=
  match m with
  | 2 => if ((y mod 4 =? 0) && negb (y mod 100 =? 0) || (y mod 400 =? 0))%nat then 29 else 28
  | 4 | 6 | 9 | 11 => 30
  | _ => 31
  end.

(** The date part of a canonical time string. *)
Definition canonical_date (s : string) : option string :=
  if negb ((String.length s =? 19)%nat
           && bool_decide (get 4 s = Some "-"%char) && bool_decide (get 7 s = Some "-"%char)
           && bool_decide (get 10 s = Some " "%char)
           && bool_decide (get 13 s = Some ":"%char) && bool_decide (get 16 s = Some ":"%char))
  then None
  else
    y ← decimal (substring 0 4 s);
    mo ← decimal (substring 5 2 s);
    d ← decimal (substring 8 2 s);
    h ← decimal (substring 11 2 s);
    mi ← decimal (substring 14 2 s);
    se ← decimal (substring 17 2 s);
    if ((1000 <=? y) && (1 <=? mo) && (mo <=? 12) && (1 <=? d) && (d <=? days_in_month y mo)
        && (h <=? 23) && (mi <=? 59) && (se <=? 59))%nat
    then Some (substring 0 10 s) else None.

Definition signed_decimal (s : string) : option Z :=
  match s with
  | String "-"%char s' => (λ n, (- Z.of_nat n)%Z) <$> decimal s'
  | String "+"%char s' => Z.of_nat <$> decimal s'
  | _ => Z.of_nat <$> decimal s
  end.

Definition sample_lib : pylib := {|
  datetime := string;
  strptime_ymd_hms := λ v, match v with SqlText s => canonical_date s | _ => None end;
  fromtimestamp_int := λ _, None;
  strftime_ymd := λ d, d;
  float_of_text := λ _, None;
  int_of_text := signed_decimal
|}.

(** ** Sample ledgers *)

Definition tx_row (h t : string) (total : Z) : transact_row :=
  {| hash := h; time := SqlText t; input_total := SqlInt total; output_total := SqlInt total |}.

(** An input row; as in the ledger dumps the analyzer reads, the transaction
    that spends the row is the row's own transaction. *)
Definition in_row (h addr : string) (v : Z) : input_row :=
  {| in_transaction_hash := h; in_recipient := Some addr; in_value := SqlInt v;
     spending_transaction_hash := Some h |}.

Definition out_row (h addr : string) (v : Z) : output_row :=
  {| out_transaction_hash := h; out_recipient := Some addr; out_value := SqlInt v |}.

(** A connection on which no statement fails. *)
Definition reliable (l : ledger) : connection := {| db := l; sql_fails := λ _, false |}.

(** The end-to-end scenario: ["tx1"] with inputs [(A,5)] and outputs
    [(B,3), (C,2)]. *)
Definition ledger_tx1 : ledger := {|
  TRANSACT := [tx_row "tx1" "2024-01-01 00:00:00" 5];
  INPUTS := [in_row "tx1" "A" 5];
  OUTPUTS := [out_row "tx1" "B" 3; out_row "tx1" "C" 2]
|}.

(** A transaction with two inputs of one address and three outputs. *)
Definition ledger_fan : ledger := {|
  TRANSACT := [tx_row "f1" "2024-03-05 10:20:30" 6];
  INPUTS := [in_row "f1" "A" 4; in_row "f1" "A" 2];
  OUTPUTS := [out_row "f1" "B" 1; out_row "f1" "C" 2; out_row "f1" "D" 3]
|}.

(** A transaction with two inputs and three outputs, all of different
    addresses. *)
Definition ledger_fan_distinct : ledger := {|
  TRANSACT := [tx_row "f2" "2024-03-05 10:20:30" 6];
  INPUTS := [in_row "f2" "A" 4; in_row "f2" "E" 2];
  OUTPUTS := [out_row "f2" "B" 1; out_row "f2" "C" 2; out_row "f2" "D" 3]
|}.

(** Two transactions, each paying from [A] to [B]. *)
Definition ledger_repeat : ledger := {|
  TRANSACT := [tx_row "t1" "2024-01-01 00:00:00" 3; tx_row "t2" "2024-02-02 12:00:00" 4];
  INPUTS := [in_row "t1" "A" 3; in_row "t2" "A" 4];
  OUTPUTS := [out_row "t1" "B" 3; out_row "t2" "B" 4]
|}.

(** A ring: [t1] pays [A -> B], [t2] pays [B -> C], [t3] pays [C -> A]; the
    successor lookups lead from [t1] to [t2], to [t3] and back to [t1]. *)
Definition ledger_ring : ledger := {|
  TRANSACT := [tx_row "t1" "2024-01-01 00:00:00" 5; tx_row "t2" "2024-01-02 00:00:00" 4;
               tx_row "t3" "2024-01-03 00:00:00" 3];
  INPUTS := [in_row "t1" "A" 5; in_row "t2" "B" 4; in_row "t3" "C" 3];
  OUTPUTS := [out_row "t1" "B" 5; out_row "t2" "C" 4; out_row "t3" "A" 3]
|}.

(** The wallet [X] takes part in [n1], whose input has no value, and in
    [n2]. *)
Definition ledger_null_value : ledger := {|
  TRANSACT := [tx_row "n1" "2024-01-01 00:00:00" 1; tx_row "n2" "2024-01-02 00:00:00" 2];
  INPUTS := [{| in_transaction_hash := "n1"; in_recipient := Some "X"; in_value := SqlNull;
                spending_transaction_hash := Some "n1" |};
             in_row "n2" "X" 2];
  OUTPUTS := [out_row "n1" "Y" 1; out_row "n2" "Z" 2]
|}.

(** [m1] has an input without recipient. *)
Definition ledger_null_recipient : ledger := {|
  TRANSACT := [tx_row "m1" "2024-01-01 00:00:00" 5];
  INPUTS := [{| in_transaction_hash := "m1"; in_recipient := None; in_value := SqlInt 5;
                spending_transaction_hash := None |}];
  OUTPUTS := [out_row "m1" "B" 5]
|}.

(** [z1] has an input and no output. *)
Definition ledger_no_output : ledger := {|
  TRANSACT := [tx_row "z1" "2024-01-01 00:00:00" 5];
  INPUTS := [in_row "z1" "A" 5];
  OUTPUTS := []
|}.

(** A transaction hash of the canonical length, 64 characters. *)
Definition hash64 : string :=
  "00000000000000000000000000000000" ++ "0123456789abcdef0123456789abcdef".

(** * Properties *)

Section Properties.

Context {lib : pylib} (conn : connection).

Implicit Types (a : analyzer) (tx h : string) (fuel : nat) (d m : Z).

Local Open Scope list_scope.

(** ** The body of [_process_transaction] in two parts

    [expand_head] is the part of one call that precedes the exploration of
    the successors (lines 50-101); its third component holds the output rows
    when that exploration is reached.  [follow] is the body of the loop over
    the output rows (lines 105-117). *)

Definition expand_head (tx_hash : string) (a : analyzer)
    : outcome * analyzer * option (list (option string * sqlval)) :=
  let a := mark_visited tx_hash a in
  match execute conn (SelectTransact tx_hash) a with
  | (true, a) => (Returned, a, None)
  | (false, a) =>
      match select_transact (db conn) tx_hash with
      | None => (Returned, a, None)
      | Some tx_data =>
          match parse_tx_date (time tx_data) with
          | None => (Returned, a, None)
          | Some tx_date =>
              match fetch_inputs_outputs conn (hash tx_data) a with
              | (None, a) => (Returned, a, None)
              | (Some (inputs, outputs), a) =>
                  match emit_edges (hash tx_data) tx_date inputs outputs a with
                  | (Returned, a) => (Returned, a, Some outputs)
                  | (stop, a) => (stop, a, None)
                  end
              end
          end
      end
  end.

Definition follow (fuel : nat) (next_depth max_depth : Z) (output : option string * sqlval)
    (a : analyzer) : outcome * analyzer :=
  match execute conn (SelectSpending (fst output)) a with
  | (true, a) => (Returned, a)
  | (false, a) =>
      for_each (select_spending (db conn) (fst output))
        (λ next_tx, _process_transaction conn fuel next_tx next_depth max_depth) a
  end.

(** The guard of line 103. *)
Definition depth_allows (current_depth max_depth : Z) : bool :=
  ((max_depth =? 0) || (current_depth <? max_depth))%Z.

Lemma process_O tx d m a : _process_transaction conn 0 tx d m a = (Starved, a).
Proof. reflexivity. Qed.

Lemma process_S fuel tx d m a :
  _process_transaction conn (S fuel) tx d m a =
  if decide (tx ∈ visited_transactions a) then (Returned, a)
  else
    match expand_head tx a with
    | (Returned, a', Some outputs) =>
        if depth_allows d m then for_each outputs (follow fuel (d + 1) m) a'
        else (Returned, a')
    | (stop, a', _) => (stop, a')
    end.
Proof.
  cbn [_process_transaction]. unfold expand_head, depth_allows.
  destruct (decide (tx ∈ visited_transactions a)); [reflexivity|].
  destruct (execute conn (SelectTransact tx) (mark_visited tx a)) as [[] a1]; [reflexivity|].
  destruct (select_transact (db conn) tx) as [tx_data|]; [|reflexivity].
  destruct (parse_tx_date (time tx_data)) as [tx_date|]; [|reflexivity].
  destruct (fetch_inputs_outputs conn (hash tx_data) a1) as [[[inputs outputs]|] a2];
    [|reflexivity].
  destruct (emit_edges (hash tx_data) tx_date inputs outputs a2) as [[] a3]; reflexivity.
Qed.

(** ** Loops *)

Lemma for_each_inv {A} (I : analyzer → Prop) (l : list A) body a :
  I a →
  (∀ x a1, x ∈ l → I a1 → I (body x a1).2) →
  I (for_each l body a).2.
Proof.
  revert a. induction l as [|x l IH]; intros a Ha Hbody; [exact Ha|].
  cbn [for_each].
  pose proof (Hbody x a (list_elem_of_here _ _) Ha) as Hx.
  destruct (body x a) as [[] a1]; try exact Hx.
  apply IH; [exact Hx|]. intros y a2 Hy. apply Hbody. by apply list_elem_of_further.
Qed.

Lemma for_each_outcome {A} (I : analyzer → Prop) (Q : outcome → Prop) (l : list A) body a :
  Q Returned → I a →
  (∀ x a1, x ∈ l → I a1 → I (body x a1).2 ∧ Q (body x a1).1) →
  I (for_each l body a).2 ∧ Q (for_each l body a).1.
Proof.
  intros HQ. revert a. induction l as [|x l IH]; intros a Ha Hbody; [by split|].
  cbn [for_each].
  pose proof (Hbody x a (list_elem_of_here _ _) Ha) as Hx.
  destruct (body x a) as [[] a1]; try exact Hx.
  apply IH; [exact (proj1 Hx)|]. intros y a2 Hy. apply Hbody. by apply list_elem_of_further.
Qed.

(** A loop that returns has run its body, with a normal return, on every
    element. *)
Lemma for_each_returned {A} (I : analyzer → Prop) (Post : A → analyzer → Prop)
    (l : list A) body a a' :
  for_each l body a = (Returned, a') →
  I a →
  (∀ x a1 a2, x ∈ l → I a1 → body x a1 = (Returned, a2) → I a2 ∧ Post x a2) →
  (∀ x y a1 a2, y ∈ l → I a1 → body y a1 = (Returned, a2) → Post x a1 → Post x a2) →
  I a' ∧ ∀ x, x ∈ l → Post x a'.
Proof.
  revert a. induction l as [|x l IH]; intros a Hrun Ha Hbody Hstable.
  - injection Hrun as <-. split; [done|]. intros x Hx. by apply elem_of_nil in Hx.
  - cbn [for_each] in Hrun. destruct (body x a) as [[] a1] eqn:Hx; try discriminate.
    destruct (Hbody x a a1 (list_elem_of_here _ _) Ha Hx) as [Ha1 Hpost].
    assert (Hstep : ∀ y a2 a3, y ∈ l → I a2 → body y a2 = (Returned, a3) → I a3 ∧ Post y a3).
    { intros y a2 a3 Hy. apply Hbody. by apply list_elem_of_further. }
    assert (Hkeep : ∀ z y a2 a3, y ∈ l → I a2 → body y a2 = (Returned, a3) →
                                 Post z a2 → Post z a3).
    { intros z y a2 a3 Hy. apply Hstable. by apply list_elem_of_further. }
    destruct (IH a1 Hrun Ha1 Hstep Hkeep) as [Ha' Hall]. split; [done|].
    intros y Hy. apply elem_of_cons in Hy as [->|Hy]; [|by apply Hall].
    (* the post-condition of the head survives the rest of the loop *)
    clear IH Hall Hbody Hstable Hx Ha' Ha.
    revert a1 Hrun Ha1 Hpost. induction l as [|z l IH]; intros a1 Hrun Ha1 Hpost.
    + by injection Hrun as <-.
    + cbn [for_each] in Hrun. destruct (body z a1) as [[] a2] eqn:Hz; try discriminate.
      apply (IH (λ y a2 a3 Hy, Hstep y a2 a3 (list_elem_of_further _ _ _ Hy))
                (λ w y a2 a3 Hy, Hkeep w y a2 a3 (list_elem_of_further _ _ _ Hy)) a2 Hrun).
      * by destruct (Hstep z a1 a2 (list_elem_of_here _ _) Ha1 Hz).
      * by apply (Hkeep x z a1 a2 (list_elem_of_here _ _) Ha1 Hz).
Qed.

(** Two bodies that agree wherever the first does not starve give the same
    loop, when the loop of the first does not starve. *)
Lemma for_each_agree {A} (l : list A) body body' a :
  (∀ x a1, x ∈ l → (body x a1).1 ≠ Starved → body' x a1 = body x a1) →
  (for_each l body a).1 ≠ Starved →
  for_each l body' a = for_each l body a.
Proof.
  revert a. induction l as [|x l IH]; intros a Hagree Hrun; [done|].
  cbn [for_each] in *.
  destruct (body x a) as [o a1] eqn:Hx.
  rewrite (Hagree x a (list_elem_of_here _ _)); rewrite Hx; [|by destruct o].
  destruct o; try done.
  apply IH; [|done]. intros y a2 Hy. apply Hagree. by apply list_elem_of_further.
Qed.

(** ** What a step leaves alone, and what only grows *)

Lemma select_transact_hash (l : ledger) h row :
  select_transact l h = Some row → hash row = h ∧ row ∈ TRANSACT l.
Proof.
  unfold select_transact. intros Hhead.
  apply head_Some_elem_of in Hhead. apply list_elem_of_filter in Hhead. tauto.
Qed.

Lemma emit_pair_frame tx date inp out a :
  visited_transactions (emit_pair tx date inp out a).2 = visited_transactions a ∧
  executed (emit_pair tx date inp out a).2 = executed a.
Proof.
  destruct inp as [[s|] iv], out as [[r|] ov]; cbn; try done.
  destruct (py_float iv); [done|]. by destruct (py_float ov).
Qed.

Lemma emit_edges_frame tx date inputs outputs a :
  visited_transactions (emit_edges tx date inputs outputs a).2 = visited_transactions a ∧
  executed (emit_edges tx date inputs outputs a).2 = executed a.
Proof.
  unfold emit_edges.
  apply (for_each_inv (λ a1, visited_transactions a1 = visited_transactions a ∧
                             executed a1 = executed a)); [done|].
  intros inp a1 _ Ha1.
  apply (for_each_inv (λ a2, visited_transactions a2 = visited_transactions a ∧
                             executed a2 = executed a)); [done|].
  intros out a2 _ [Hv He]. destruct (emit_pair_frame tx date inp out a2) as [-> ->]. done.
Qed.

(** Nothing is ever removed: the visited set, the executed statements, the
    nodes, the edges and the balances of the state before are still there in
    the state after. *)
Record grows (a a' : analyzer) : Prop := {
  grows_visited : visited_transactions a ⊆ visited_transactions a';
  grows_executed : executed a `prefix_of` executed a';
  grows_nodes : dom (nodes (G a)) ⊆ dom (nodes (G a'));
  grows_adj : dom (adj (G a)) ⊆ dom (adj (G a'));
  grows_balances : dom (wallet_balances a) ⊆ dom (wallet_balances a')
}.

Global Instance grows_preorder : PreOrder grows.
Proof.
  split.
  - intros a. by split.
  - intros a1 a2 a3 [] []. split; by etrans.
Qed.

Lemma add_node_nodes u g : dom (nodes (add_node u g)) = {[u]} ∪ dom (nodes g).
Proof.
  unfold add_node. destruct (nodes g !! u) eqn:Hu; cbn.
  - apply elem_of_dom_2 in Hu. set_solver.
  - by rewrite dom_insert_L.
Qed.

Lemma add_node_adj u g : adj (add_node u g) = adj g.
Proof. unfold add_node. by destruct (nodes g !! u). Qed.

Lemma add_edge_adj u v attr g : adj (add_edge u v attr g) = <[(u, v) := attr]> (adj g).
Proof. unfold add_edge. cbn. by rewrite !add_node_adj. Qed.

Lemma add_edge_nodes u v attr g :
  dom (nodes (add_edge u v attr g)) = {[u; v]} ∪ dom (nodes g).
Proof. unfold add_edge. cbn. rewrite !add_node_nodes. set_solver. Qed.

Lemma mark_visited_grows tx a : grows a (mark_visited tx a).
Proof. split; cbn; try done. set_solver. Qed.

Lemma execute_grows q a : grows a (execute conn q a).2.
Proof. split; cbn; try done. by apply prefix_app_r. Qed.

Lemma update_balance_grows w x a : grows a (_update_wallet_balance w x a).
Proof. split; cbn; try done. rewrite dom_insert_L. set_solver. Qed.

Lemma set_G_grows g a :
  dom (nodes (G a)) ⊆ dom (nodes g) → dom (adj (G a)) ⊆ dom (adj g) → grows a (set_G g a).
Proof. intros. by split. Qed.

Lemma emit_pair_grows tx date inp out a : grows a (emit_pair tx date inp out a).2.
Proof.
  destruct inp as [[s|] iv], out as [[r|] ov]; cbn; try reflexivity.
  - assert (grows a (set_G (add_edge s r {| tx_id := tx; value := ov; date := date |} (G a)) a))
      as Hedge.
    { apply set_G_grows; [rewrite add_edge_nodes|rewrite add_edge_adj, dom_insert_L];
        set_solver. }
    destruct (py_float iv); [done|]. cbn.
    destruct (py_float ov); cbn.
    + etrans; [exact Hedge|]. apply update_balance_grows.
    + etrans; [exact Hedge|]. etrans; apply update_balance_grows.
  - apply set_G_grows; [rewrite add_node_nodes|rewrite add_node_adj]; set_solver.
Qed.

Lemma emit_edges_grows tx date inputs outputs a :
  grows a (emit_edges tx date inputs outputs a).2.
Proof.
  unfold emit_edges. apply (for_each_inv (grows a)); [done|].
  intros inp a1 _ Ha1. etrans; [exact Ha1|].
  apply (for_each_inv (grows a1)); [done|].
  intros out a2 _ Ha2. etrans; [exact Ha2|]. apply emit_pair_grows.
Qed.

Lemma fetch_inputs_outputs_grows tx a : grows a (fetch_inputs_outputs conn tx a).2.
Proof.
  unfold fetch_inputs_outputs.
  pose proof (execute_grows (SelectInputs tx) a) as H1.
  destruct (execute conn (SelectInputs tx) a) as [[] a1]; [done|].
  pose proof (execute_grows (SelectOutputs tx) a1) as H2.
  destruct (execute conn (SelectOutputs tx) a1) as [[] a2];
    cbn [fst snd] in *; exact (transitivity H1 H2).
Qed.

Lemma expand_head_grows tx a : grows a (expand_head tx a).1.2.
Proof.
  unfold expand_head.
  pose proof (mark_visited_grows tx a) as H0.
  pose proof (execute_grows (SelectTransact tx) (mark_visited tx a)) as H1.
  destruct (execute conn (SelectTransact tx) (mark_visited tx a)) as [[] a1];
    cbn [fst snd] in *; [exact (transitivity H0 H1)|].
  assert (grows a a1) as Ha1 by exact (transitivity H0 H1).
  destruct (select_transact (db conn) tx) as [row|]; [|done].
  destruct (parse_tx_date (time row)) as [date|]; [|done].
  pose proof (fetch_inputs_outputs_grows (hash row) a1) as H2.
  destruct (fetch_inputs_outputs conn (hash row) a1) as [[[inputs outputs]|] a2];
    cbn [fst snd] in *; [|exact (transitivity Ha1 H2)].
  pose proof (emit_edges_grows (hash row) date inputs outputs a2) as H3.
  destruct (emit_edges (hash row) date inputs outputs a2) as [[] a3];
    cbn [fst snd] in *; exact (transitivity Ha1 (transitivity H2 H3)).
Qed.

(** ** A relation kept by the head of a call and by the successor lookups is
    kept by the whole traversal *)

Section Preservation.

Variable R : relation analyzer.
Context `{!PreOrder R}.
Hypothesis R_head : ∀ tx a, tx ∉ visited_transactions a → R a (expand_head tx a).1.2.
Hypothesis R_lookup : ∀ r a, R a (execute conn (SelectSpending r) a).2.

Lemma process_preserves fuel tx d m a : R a (_process_transaction conn fuel tx d m a).2.
Proof.
  revert tx d m a. induction fuel as [|fuel IH]; intros tx d m a; [reflexivity|].
  rewrite process_S. destruct (decide (tx ∈ visited_transactions a)) as [|Hnew]; [reflexivity|].
  pose proof (R_head tx a Hnew) as Hhead.
  destruct (expand_head tx a) as [[o a1] outs]. cbn in Hhead.
  destruct o, outs as [outputs|]; try exact Hhead.
  destruct (depth_allows d m); [|exact Hhead].
  apply (for_each_inv (R a)); [exact Hhead|].
  intros output a2 _ Ha2. etrans; [exact Ha2|]. unfold follow.
  pose proof (R_lookup (fst output) a2) as Hq.
  destruct (execute conn (SelectSpending (fst output)) a2) as [[] a3]; [exact Hq|].
  apply (for_each_inv (R a2)); [exact Hq|].
  intros next a4 _ Ha4. etrans; [exact Ha4|]. apply IH.
Qed.

Hypothesis R_seed : ∀ t a, R a (execute conn (SelectWallet t) a).2.
Hypothesis R_attributes : ∀ a, R a (assign_node_attributes a).

Lemma build_preserves fuel target m a : R a (build_graph conn fuel target m a).2.
Proof.
  unfold build_graph. destruct (decide (String.length target = 64)).
  - pose proof (process_preserves fuel target 1 m a) as Hrun.
    destruct (_process_transaction conn fuel target 1 m a) as [[] a1]; try exact Hrun.
    etrans; [exact Hrun|]. apply R_attributes.
  - pose proof (R_seed target a) as Hq.
    destruct (execute conn (SelectWallet target) a) as [[] a1]; [exact Hq|].
    assert (R a (for_each (select_wallet (db conn) target)
                   (λ tx_hash, _process_transaction conn fuel tx_hash 1 m) a1).2) as Hloop.
    { apply (for_each_inv (R a)); [exact Hq|].
      intros t a2 _ Ha2. etrans; [exact Ha2|]. apply process_preserves. }
    destruct (for_each _ _ a1) as [[] a2]; try exact Hloop.
    etrans; [exact Hloop|]. apply R_attributes.
Qed.

End Preservation.

Lemma assign_node_attributes_grows a : grows a (assign_node_attributes a).
Proof.
  split; cbn; try done.
  intros u Hu. apply elem_of_dom in Hu as [x Hx]. apply elem_of_dom.
  rewrite map_lookup_imap, Hx. cbn. eauto.
Qed.

Lemma process_grows fuel tx d m a : grows a (_process_transaction conn fuel tx d m a).2.
Proof.
  apply process_preserves; [apply _| |]; intros; [apply expand_head_grows|apply execute_grows].
Qed.


(** ** The head of a call, case by case *)

(** The statements executed by one call (or one sequence of calls) that
    leads from [a] to [a']. *)
Definition issued a a' : list query := drop (length (executed a)) (executed a').

Lemma issued_app a a' delta : executed a' = executed a ++ delta → issued a a' = delta.
Proof. unfold issued. intros ->. by rewrite drop_app_length. Qed.

Lemma grows_issued a a' : grows a a' → executed a' = executed a ++ issued a a'.
Proof. intros [_ [delta Hd] _ _ _]. by rewrite (issued_app _ _ _ Hd). Qed.

(** The state after [delta] has been executed. *)
Definition logged (delta : list query) a : analyzer :=
  {| G := G a; wallet_balances := wallet_balances a;
     visited_transactions := visited_transactions a;
     executed := executed a ++ delta |}.

(** The state in which the transaction has been marked and [delta] has been
    executed. *)
Definition entered tx (delta : list query) a : analyzer := logged delta (mark_visited tx a).

(** The three statements of a head that reaches the emission of edges. *)
Definition head_queries tx : list query :=
  [SelectTransact tx; SelectInputs tx; SelectOutputs tx].

(** The [k]-th statement from now fails. *)
Definition fails_at a (k : nat) : bool := sql_fails conn (length (executed a) + k).

Lemma execute_unfold q a : execute conn q a = (fails_at a 0, logged [q] a).
Proof. unfold execute, fails_at, logged. by rewrite Nat.add_0_r. Qed.

Lemma logged_logged (l1 l2 : list query) a : logged l2 (logged l1 a) = logged (l1 ++ l2) a.
Proof. unfold logged. cbn. by rewrite app_assoc. Qed.

Lemma fails_at_logged delta a k : fails_at (logged delta a) k = fails_at a (length delta + k).
Proof. unfold fails_at, logged. cbn. by rewrite length_app, Nat.add_assoc. Qed.

Lemma fails_at_mark_visited tx a k : fails_at (mark_visited tx a) k = fails_at a k.
Proof. reflexivity. Qed.

Lemma fetch_inputs_outputs_unfold tx a :
  fetch_inputs_outputs conn tx a =
  if fails_at a 0 then (None, logged [SelectInputs tx] a)
  else if fails_at a 1 then (None, logged [SelectInputs tx; SelectOutputs tx] a)
  else (Some (select_inputs (db conn) tx, select_outputs (db conn) tx),
        logged [SelectInputs tx; SelectOutputs tx] a).
Proof.
  unfold fetch_inputs_outputs. rewrite execute_unfold.
  destruct (fails_at a 0); [done|].
  rewrite execute_unfold, fails_at_logged, logged_logged. cbn [length Nat.add app].
  by destruct (fails_at a 1).
Qed.

(** The head reaches the emission of edges: the record is there, its time
    parses, and none of the three statements fails. *)
Definition reaches_emission tx a (row : transact_row) (tx_date : string) : Prop :=
  select_transact (db conn) tx = Some row ∧ parse_tx_date (time row) = Some tx_date ∧
  fails_at a 0 = false ∧ fails_at a 1 = false ∧ fails_at a 2 = false.

Lemma expand_head_emits tx a row tx_date :
  reaches_emission tx a row tx_date →
  let r := emit_edges tx tx_date (select_inputs (db conn) tx) (select_outputs (db conn) tx)
             (entered tx (head_queries tx) a) in
  expand_head tx a =
    (r.1, r.2, match r.1 with Returned => Some (select_outputs (db conn) tx) | _ => None end).
Proof.
  intros (Hrow & Hdate & H0 & H1 & H2).
  destruct (select_transact_hash _ _ _ Hrow) as [Hhash _].
  unfold expand_head.
  rewrite execute_unfold, fails_at_mark_visited, H0, Hrow, Hdate, Hhash.
  rewrite fetch_inputs_outputs_unfold, !fails_at_logged, !fails_at_mark_visited.
  cbn [length Nat.add]. rewrite H1, H2, logged_logged. cbn [app].
  fold (head_queries tx). fold (entered tx (head_queries tx) a).
  by destruct (emit_edges tx tx_date _ _ _) as [[] a3].
Qed.

(** Every other head is a silent skip: it returns, and has only marked the
    transaction and executed one, two or three statements. *)
Lemma expand_head_skips tx a :
  (∀ row tx_date, ¬ reaches_emission tx a row tx_date) →
  ∃ delta, delta `prefix_of` head_queries tx ∧ delta ≠ [] ∧
           expand_head tx a = (Returned, entered tx delta a, None).
Proof.
  intros Hno. unfold expand_head.
  rewrite execute_unfold, fails_at_mark_visited. fold (entered tx [SelectTransact tx] a).
  destruct (fails_at a 0) eqn:H0.
  { exists [SelectTransact tx]. split; [by exists [SelectInputs tx; SelectOutputs tx]|done]. }
  destruct (select_transact (db conn) tx) as [row|] eqn:Hrow; cycle 1.
  { exists [SelectTransact tx]. split; [by exists [SelectInputs tx; SelectOutputs tx]|done]. }
  destruct (parse_tx_date (time row)) as [tx_date|] eqn:Hdate; cycle 1.
  { exists [SelectTransact tx]. split; [by exists [SelectInputs tx; SelectOutputs tx]|done]. }
  destruct (select_transact_hash _ _ _ Hrow) as [Hhash _]. rewrite Hhash.
  unfold entered.
  rewrite fetch_inputs_outputs_unfold, !fails_at_logged, !fails_at_mark_visited, !logged_logged.
  cbn [length Nat.add app].
  destruct (fails_at a 1) eqn:H1.
  { exists [SelectTransact tx; SelectInputs tx]. split; [by exists [SelectOutputs tx]|done]. }
  destruct (fails_at a 2) eqn:H2.
  { by exists (head_queries tx). }
  exfalso. by apply (Hno row tx_date).
Qed.

Lemma expand_head_cases tx a :
  (∃ row tx_date, reaches_emission tx a row tx_date) ∨
  (∀ row tx_date, ¬ reaches_emission tx a row tx_date).
Proof.
  unfold reaches_emission.
  destruct (select_transact (db conn) tx) as [row|]; [|right; naive_solver].
  destruct (parse_tx_date (time row)) as [tx_date|] eqn:Hd; [|right; naive_solver].
  destruct (fails_at a 0) eqn:?, (fails_at a 1) eqn:?, (fails_at a 2) eqn:?;
    try (right; naive_solver).
  left. by exists row, tx_date.
Qed.

Lemma expand_head_visited tx a :
  visited_transactions (expand_head tx a).1.2 = {[tx]} ∪ visited_transactions a.
Proof.
  destruct (expand_head_cases tx a) as [(row & tx_date & Hr)|Hno].
  - rewrite (expand_head_emits _ _ _ _ Hr). cbn [fst snd].
    by destruct (emit_edges_frame tx tx_date (select_inputs (db conn) tx)
                   (select_outputs (db conn) tx) (entered tx (head_queries tx) a)) as [-> _].
  - by destruct (expand_head_skips _ _ Hno) as (delta & _ & _ & ->).
Qed.

Lemma expand_head_issued tx a :
  issued a (expand_head tx a).1.2 `prefix_of` head_queries tx ∧
  issued a (expand_head tx a).1.2 ≠ [].
Proof.
  destruct (expand_head_cases tx a) as [(row & tx_date & Hr)|Hno].
  - rewrite (expand_head_emits _ _ _ _ Hr). cbn [fst snd].
    destruct (emit_edges_frame tx tx_date (select_inputs (db conn) tx)
                (select_outputs (db conn) tx) (entered tx (head_queries tx) a)) as [_ He].
    by rewrite (issued_app a _ (head_queries tx) He).
  - destruct (expand_head_skips _ _ Hno) as (delta & Hp & Hne & ->). cbn [fst snd].
    by rewrite (issued_app a (entered tx delta a) delta eq_refl).
Qed.

Lemma expand_head_never_starves tx a : (expand_head tx a).1.1 ≠ Starved.
Proof.
  destruct (expand_head_cases tx a) as [(row & tx_date & Hr)|Hno].
  - rewrite (expand_head_emits _ _ _ _ Hr). cbn [fst snd]. unfold emit_edges.
    apply (for_each_outcome (λ _, True) (λ o, o ≠ Starved)); [done..|].
    intros inp a1 _ _. apply (for_each_outcome (λ _, True) (λ o, o ≠ Starved)); [done..|].
    intros out a2 _ _. split; [done|].
    destruct inp as [[s|] iv], out as [[r|] ov]; cbn; try done.
    destruct (py_float iv); [done|]. by destruct (py_float ov).
  - by destruct (expand_head_skips _ _ Hno) as (delta & _ & _ & ->).
Qed.

Lemma expand_head_outputs tx a o a' outputs :
  expand_head tx a = (o, a', Some outputs) →
  o = Returned ∧ outputs = select_outputs (db conn) tx ∧
  ∃ row tx_date, reaches_emission tx a row tx_date.
Proof.
  destruct (expand_head_cases tx a) as [(row & tx_date & Hr)|Hno].
  - rewrite (expand_head_emits _ _ _ _ Hr). cbn zeta.
    destruct (emit_edges tx tx_date _ _ _) as [[] a3]; cbn [fst snd]; intros [= <- <- <-] || intros [=].
    eauto.
  - destruct (expand_head_skips _ _ Hno) as (delta & _ & _ & ->). intros [=].
Qed.

(** ** A transaction without outputs; a call at the depth bound *)

Lemma emit_edges_no_outputs tx tx_date inputs a :
  emit_edges tx tx_date inputs [] a = (Returned, a).
Proof. unfold emit_edges. induction inputs as [|inp inputs IH]; cbn; done. Qed.

Lemma head_queries_no_lookup tx (delta : list query) rcp :
  delta `prefix_of` head_queries tx → SelectSpending rcp ∉ delta.
Proof.
  intros [k Hk] Hin.
  assert (SelectSpending rcp ∈ head_queries tx) as Hall by (rewrite Hk; set_solver).
  unfold head_queries in Hall. set_solver.
Qed.

(** The guard of line 103 is closed exactly when the bound is not zero and
    the current depth has reached it. *)
Lemma depth_allows_false d m : depth_allows d m = false ↔ (m ≠ 0 ∧ m ≤ d)%Z.
Proof. unfold depth_allows. lia. Qed.

(** A call whose guard is closed is its head. *)
Lemma process_at_bound fuel tx d m a :
  depth_allows d m = false → tx ∉ visited_transactions a →
  _process_transaction conn (S fuel) tx d m a = (expand_head tx a).1.
Proof.
  intros Hd Hnew. rewrite process_S, Hd. destruct (decide _) as [|_]; [done|].
  by destruct (expand_head tx a) as [[[] a1] [outputs|]].
Qed.

(** C10.  A transaction that has no output record (whatever its input
    records): its expansion returns, leaves the graph and the balances as
    they were, adds the transaction to the visited set, and executes no
    successor lookup. *)
Theorem no_outputs_only_marks_visited fuel tx d m a :
  select_outputs (db conn) tx = [] →
  tx ∉ visited_transactions a →
  let r := _process_transaction conn (S fuel) tx d m a in
  r.1 = Returned ∧ G r.2 = G a ∧ wallet_balances r.2 = wallet_balances a ∧
  visited_transactions r.2 = {[tx]} ∪ visited_transactions a ∧
  ∀ rcp, SelectSpending rcp ∉ issued a r.2.
Proof.
  intros Hout Hnew. cbn zeta. rewrite process_S.
  destruct (decide (tx ∈ visited_transactions a)) as [|_]; [done|].
  destruct (expand_head_cases tx a) as [(row & tx_date & Hr)|Hno].
  - rewrite (expand_head_emits _ _ _ _ Hr), Hout, emit_edges_no_outputs. cbn [fst snd for_each].
    assert ((if depth_allows d m then (Returned, entered tx (head_queries tx) a)
             else (Returned, entered tx (head_queries tx) a))
            = (Returned, entered tx (head_queries tx) a)) as -> by (by destruct depth_allows).
    cbn [fst snd]. repeat split; try done.
    intros rcp. rewrite (issued_app a (entered tx (head_queries tx) a) (head_queries tx) eq_refl).
    by apply (head_queries_no_lookup tx).
  - destruct (expand_head_skips _ _ Hno) as (delta & Hp & _ & ->). cbn [fst snd].
    repeat split; try done.
    intros rcp. rewrite (issued_app a (entered tx delta a) delta eq_refl).
    by apply (head_queries_no_lookup tx).
Qed.

(** C5, as amended.  When a transaction is expanded at a depth that has
    reached a maximal depth other than zero, no successor lookup is executed
    at all: the call executes at most the three statements about the
    transaction itself, and visits no other transaction. *)
Theorem exhausted_depth_no_lookup fuel tx d m a :
  (m ≠ 0)%Z → (m ≤ d)%Z →
  let r := _process_transaction conn fuel tx d m a in
  (∀ rcp, SelectSpending rcp ∉ issued a r.2) ∧
  issued a r.2 `prefix_of` head_queries tx ∧
  visited_transactions r.2 ⊆ {[tx]} ∪ visited_transactions a.
Proof.
  intros Hm Hd. cbn zeta.
  assert (issued a a = []) as Hnil.
  { apply issued_app. by rewrite app_nil_r. }
  destruct fuel as [|fuel].
  { rewrite process_O. cbn [snd]. rewrite Hnil.
    split_and!; [set_solver|by exists (head_queries tx)|set_solver]. }
  destruct (decide (tx ∈ visited_transactions a)) as [Hin|Hnew].
  { rewrite process_S. destruct (decide _); [|done]. cbn [snd]. rewrite Hnil.
    split_and!; [set_solver|by exists (head_queries tx)|set_solver]. }
  rewrite process_at_bound; [|by apply depth_allows_false|done].
  destruct (expand_head_issued tx a) as [Hp _].
  split_and!; [intros rcp; by apply (head_queries_no_lookup tx)|done|].
  by rewrite expand_head_visited.
Qed.

(** ** One edge per ordered pair *)

Lemma emit_pair_returned tx tx_date s iv r ov a a' :
  emit_pair tx tx_date (Some s, iv) (Some r, ov) a = (Returned, a') →
  ∃ x y, py_float iv = inr x ∧ py_float ov = inr y ∧
         a' = _update_wallet_balance r y
                (_update_wallet_balance s (- x)%float
                   (set_G (add_edge s r {| tx_id := tx; value := ov; date := tx_date |} (G a))
                      a)).
Proof.
  cbn. destruct (py_float iv) as [e|x]; [done|]. destruct (py_float ov) as [e|y]; [done|].
  intros [= <-]. by exists x, y.
Qed.

(** C3, as amended.  The graph is a simple directed graph: an ordered pair of
    addresses has at most one edge.  Emitting the pair (sender, receiver)
    sets the attributes of that edge to the transaction, value and date at
    hand, whatever an earlier transaction had written there; the other edges
    keep their attributes, and when the pair was an edge already the number
    of edges does not change. *)
Theorem edge_is_replaced tx tx_date s iv r ov a a' :
  emit_pair tx tx_date (Some s, iv) (Some r, ov) a = (Returned, a') →
  adj (G a') !! (s, r) = Some {| tx_id := tx; value := ov; date := tx_date |} ∧
  (∀ k, k ≠ (s, r) → adj (G a') !! k = adj (G a) !! k) ∧
  (is_Some (adj (G a) !! (s, r)) → size (adj (G a')) = size (adj (G a))).
Proof.
  intros Hrun. destruct (emit_pair_returned _ _ _ _ _ _ _ _ Hrun) as (x & y & _ & _ & ->).
  cbn [G _update_wallet_balance set_G]. rewrite add_edge_adj. split_and!.
  - apply lookup_insert_eq.
  - intros k Hk. by apply lookup_insert_ne.
  - intros [e He]. rewrite <- !size_dom, dom_insert_L.
    f_equal. apply elem_of_dom_2 in He. set_solver.
Qed.

(** ** Nothing is reset between two builds *)


(** ** The seed *)

(** The rows of the address-mode statement: each hash once, and exactly the
    transactions with an input row or an output row of that recipient. *)
Lemma select_wallet_union (l : ledger) target :
  NoDup (select_wallet l target) ∧
  ∀ h, h ∈ select_wallet l target ↔
       (∃ row, row ∈ INPUTS l ∧ in_recipient row = Some target ∧ in_transaction_hash row = h) ∨
       (∃ row, row ∈ OUTPUTS l ∧ out_recipient row = Some target ∧
               out_transaction_hash row = h).
Proof.
  unfold select_wallet. split; [apply NoDup_remove_dups|].
  intros h. rewrite elem_of_remove_dups, elem_of_app, !list_elem_of_fmap.
  setoid_rewrite list_elem_of_filter. naive_solver.
Qed.

(** A target of 64 characters is expanded as a transaction at depth 1; any
    other target is resolved by the address-mode statement, and every row of
    it is expanded at depth 1. *)
Lemma build_graph_routes fuel target m a :
  (String.length target = 64 →
   build_graph conn fuel target m a =
   match _process_transaction conn fuel target 1 m a with
   | (Returned, a') => (Returned, assign_node_attributes a')
   | stop => stop
   end) ∧
  (String.length target ≠ 64 →
   build_graph conn fuel target m a =
   if fails_at a 0 then (Returned, logged [SelectWallet target] a)
   else
     match for_each (select_wallet (db conn) target)
             (λ tx_hash, _process_transaction conn fuel tx_hash 1 m)
             (logged [SelectWallet target] a) with
     | (Returned, a') => (Returned, assign_node_attributes a')
     | stop => stop
     end).
Proof.
  unfold build_graph. split; intros Hlen; destruct (decide _); try done.
  by rewrite execute_unfold.
Qed.

(** C8: [main] turns away every target of 64 characters, the length that
    [build_graph] reads as a transaction hash: it ends with the message for a
    [ValueError] and never builds a graph. *)
Theorem main_rejects_hash_of_64 fuel cfg connect target :
  Target cfg = Some target → String.length target = 64 →
  main fuel cfg connect = InputError.
Proof.
  intros Ht Hlen. unfold main. rewrite Ht.
  destruct (int_of_text (default "0"%string (Depth cfg))) eqn:Hd; [|done].
  by rewrite Hlen.
Qed.

(** ** The cross product of the inputs and the outputs *)

(** A value [float] accepts, and the number it yields. *)
Definition convertible (v : sqlval) : Prop := ∃ x, py_float v = inr x.

Definition amount (v : sqlval) : float :=
  match py_float v with
  | inr x => x
  | inl _ => 0%float
  end.

(** What lines 93-101 do for a sender and a receiver that are strings and
    values that convert. *)
Definition pair_step (tx tx_date : string) (inp out : string * sqlval) a : analyzer :=
  _update_wallet_balance out.1 (amount out.2)
    (_update_wallet_balance inp.1 (- amount inp.2)%float
       (set_G (add_edge inp.1 out.1 {| tx_id := tx; value := out.2; date := tx_date |} (G a))
          a)).

(** The rows of a query whose recipients are all strings. *)
Definition rows (l : list (string * sqlval)) : list (option string * sqlval) :=
  (λ p, (Some p.1, p.2)) <$> l.

(** What the balance of [w] receives from a list of pairs, in order. *)
Definition contributions (w : string) (pairs : list ((string * sqlval) * (string * sqlval)))
    : list float :=
  pairs ≫= λ p,
    (if decide (p.1.1 = w) then [(- amount p.1.2)%float] else []) ++
    (if decide (p.2.1 = w) then [amount p.2.2] else []).

Lemma emit_pair_step tx tx_date inp out a :
  convertible inp.2 → convertible out.2 →
  emit_pair tx tx_date (Some inp.1, inp.2) (Some out.1, out.2) a
  = (Returned, pair_step tx tx_date inp out a).
Proof.
  intros [x Hx] [y Hy]. unfold pair_step, amount. cbn. by rewrite Hx, Hy.
Qed.

Lemma foldl_list_prod {A B C} (f : C → A * B → C) (l1 : list A) (l2 : list B) (c : C) :
  foldl f c (list_prod l1 l2) = foldl (λ c x, foldl (λ c y, f c (x, y)) c l2) c l1.
Proof.
  revert c. induction l1 as [|x l1 IH]; intros c; [done|].
  cbn [list_prod]. rewrite foldl_app, IH. cbn [foldl]. f_equal.
  change (map (λ y, (x, y)) l2) with ((λ y, (x, y)) <$> l2). by rewrite foldl_fmap.
Qed.

(** The two nested loops are one loop over the cross product, inputs first. *)
Lemma emit_edges_fold tx tx_date (ins outs : list (string * sqlval)) a :
  Forall (λ p, convertible p.2) ins → Forall (λ p, convertible p.2) outs →
  emit_edges tx tx_date (rows ins) (rows outs) a
  = (Returned, foldl (λ a p, pair_step tx tx_date p.1 p.2 a) a (list_prod ins outs)).
Proof.
  intros Hins Houts. rewrite foldl_list_prod. unfold emit_edges, rows.
  revert a. induction Hins as [|inp ins Hinp _ IH]; intros a; [done|].
  cbn [fmap list_fmap for_each foldl].
  assert (∀ a1, for_each ((λ p, (Some p.1, p.2)) <$> outs)
                  (λ out, emit_pair tx tx_date (Some inp.1, inp.2) out) a1
                = (Returned, foldl (λ a2 out, pair_step tx tx_date inp out a2) a1 outs))
    as Hinner.
  { clear IH. induction Houts as [|out outs Hout _ IH]; intros a1; [done|].
    cbn [fmap list_fmap for_each foldl]. rewrite (emit_pair_step _ _ inp out) by done.
    apply IH. }
  rewrite Hinner. apply IH.
Qed.

Lemma pair_step_adj tx tx_date inp out a :
  adj (G (pair_step tx tx_date inp out a))
  = <[(inp.1, out.1) := {| tx_id := tx; value := out.2; date := tx_date |}]> (adj (G a)).
Proof. unfold pair_step. cbn [G _update_wallet_balance set_G]. apply add_edge_adj. Qed.

Lemma fold_pair_step_adj tx tx_date pairs a :
  adj (G (foldl (λ a p, pair_step tx tx_date p.1 p.2 a) a pairs))
  = foldl (λ g p, <[(p.1.1, p.2.1) := {| tx_id := tx; value := p.2.2; date := tx_date |}]> g)
      (adj (G a)) pairs.
Proof.
  revert a. induction pairs as [|p pairs IH]; intros a; [done|].
  cbn [foldl]. by rewrite IH, pair_step_adj.
Qed.

(** After a sequence of insertions a key holds what the last insertion for it
    wrote, and what it held before when there was none. *)
Lemma foldl_insert_lookup {A} `{Countable K} {V} (key : A → K) (val : A → V)
    (l : list A) (g : gmap K V) (k : K) :
  (∃ x, x ∈ l ∧ key x = k ∧ foldl (λ g x, <[key x := val x]> g) g l !! k = Some (val x)) ∨
  ((∀ x, x ∈ l → key x ≠ k) ∧ foldl (λ g x, <[key x := val x]> g) g l !! k = g !! k).
Proof.
  induction l as [|x l IH] using rev_ind.
  - right. split; [|done]. intros x Hx. by apply elem_of_nil in Hx.
  - rewrite foldl_snoc. destruct (decide (key x = k)) as [<-|Hne].
    + left. exists x. rewrite lookup_insert_eq. set_solver.
    + rewrite lookup_insert_ne by done.
      destruct IH as [(y & Hy & Hk & Hl)|[Hall Hl]]; [left|right].
      * exists y. set_solver.
      * split; [|done]. intros y Hy. apply elem_of_app in Hy as [Hy|Hy]; [by apply Hall|].
        apply list_elem_of_singleton in Hy as ->. done.
Qed.

Lemma foldl_insert_dom {A} `{Countable K} {V} (key : A → K) (val : A → V)
    (l : list A) (g : gmap K V) :
  dom (foldl (λ g x, <[key x := val x]> g) g l) = dom g ∪ list_to_set (key <$> l).
Proof.
  revert g. induction l as [|x l IH]; intros g; cbn [foldl].
  - set_solver.
  - rewrite IH, dom_insert_L. set_solver.
Qed.

Lemma NoDup_fst_agree {A B} (l : list (A * B)) x y1 y2 :
  NoDup l.*1 → (x, y1) ∈ l → (x, y2) ∈ l → y1 = y2.
Proof.
  induction l as [|[x' y'] l IH]; cbn; intros Hnd H1 H2; [by apply elem_of_nil in H1|].
  apply NoDup_cons in Hnd as [Hx Hnd].
  apply elem_of_cons in H1 as [H1|H1]; apply elem_of_cons in H2 as [H2|H2]; simplify_eq.
  - done.
  - destruct Hx. apply list_elem_of_fmap. by exists (x', y2).
  - destruct Hx. apply list_elem_of_fmap. by exists (x', y1).
  - by apply IH.
Qed.

Lemma update_balance_lookup w k x a :
  default 0%float (wallet_balances (_update_wallet_balance k x a) !! w)
  = if decide (k = w) then (default 0%float (wallet_balances a !! w) + x)%float
    else default 0%float (wallet_balances a !! w).
Proof.
  cbn. destruct (decide (k = w)) as [->|Hne].
  - by rewrite lookup_insert_eq.
  - by rewrite lookup_insert_ne.
Qed.

Lemma fold_pair_step_balance tx tx_date pairs a w :
  default 0%float (wallet_balances (foldl (λ a p, pair_step tx tx_date p.1 p.2 a) a pairs) !! w)
  = foldl PrimFloat.add (default 0%float (wallet_balances a !! w)) (contributions w pairs).
Proof.
  revert a. induction pairs as [|[inp out] pairs IH]; intros a; [done|].
  cbn [foldl]. rewrite IH. unfold contributions. cbn [mbind list_bind]. rewrite foldl_app.
  f_equal. unfold pair_step. rewrite !update_balance_lookup. cbn [fst snd set_G wallet_balances].
  destruct (decide (inp.1 = w)), (decide (out.1 = w)); done.
Qed.
Lemma list_prod_fmap {A B A' B'} (f : A → A') (g : B → B') (l1 : list A) (l2 : list B) :
  (λ p, (f p.1, g p.2)) <$> list_prod l1 l2 = list_prod (f <$> l1) (g <$> l2).
Proof.
  induction l1 as [|x l1 IH]; [done|].
  cbn [list_prod fmap list_fmap]. rewrite fmap_app, IH. f_equal.
  change (map (λ y, (x, y)) l2) with ((λ y, (x, y)) <$> l2).
  change (map (λ y, (f x, y)) (list_fmap B B' g l2)) with ((λ y, (f x, y)) <$> (g <$> l2)).
  rewrite <- !list_fmap_compose. done.
Qed.

Lemma elem_of_list_prod {A B} (l1 : list A) (l2 : list B) x y :
  (x, y) ∈ list_prod l1 l2 ↔ x ∈ l1 ∧ y ∈ l2.
Proof. rewrite !list_elem_of_In. apply in_prod_iff. Qed.

Lemma NoDup_list_prod {A B} (l1 : list A) (l2 : list B) :
  NoDup l1 → NoDup l2 → NoDup (list_prod l1 l2).
Proof.
  intros H1 H2. induction H1 as [|x l1 Hx _ IH]; [constructor|].
  cbn [list_prod]. apply NoDup_app. split_and!; [|intros [x' y] Hin|done].
  - change (map (λ y, (x, y)) l2) with ((λ y, (x, y)) <$> l2).
    apply NoDup_fmap_2; [|done]. by intros y1 y2 [=].
  - change (map (λ y, (x, y)) l2) with ((λ y, (x, y)) <$> l2) in Hin.
    apply list_elem_of_fmap in Hin as (y' & [= -> ->] & _).
    rewrite elem_of_list_prod. tauto.
Qed.

(** C1, as amended.  For a transaction that is expanded, with [m] input
    records and [n] output records whose addresses are all strings and whose
    values all convert to floats: the builder handles the [m * n] pairs
    (input, output) one after the other, inputs first; for each pair it sets
    the edge from the input's address to the output's address (transaction
    identifier, the output's value, the parsed date), subtracts the input's
    value from the sender's balance and adds the output's value to the
    receiver's balance.  As an ordered pair of addresses has one edge, every
    pair of an input address and an output address is an edge afterwards,
    carrying the value of an output record of that receiver: of that very
    record when no two output records share an address.  When moreover no
    two input records share an address and none of these pairs was an edge
    before, the graph has [m * n] edges more. *)
Theorem cross_product_emission tx a row tx_date (ins outs : list (string * sqlval)) :
  reaches_emission tx a row tx_date →
  select_inputs (db conn) tx = rows ins →
  select_outputs (db conn) tx = rows outs →
  Forall (λ p, convertible p.2) ins →
  Forall (λ p, convertible p.2) outs →
  let pairs := list_prod ins outs in
  let a' := foldl (λ a p, pair_step tx tx_date p.1 p.2 a) (entered tx (head_queries tx) a)
              pairs in
  expand_head tx a = (Returned, a', Some (rows outs)) ∧
  length pairs = length ins * length outs ∧
  (∀ inp out, inp ∈ ins → out ∈ outs →
     ∃ out', out' ∈ outs ∧ out'.1 = out.1 ∧
       adj (G a') !! (inp.1, out.1)
       = Some {| tx_id := tx; value := out'.2; date := tx_date |}) ∧
  (NoDup outs.*1 → ∀ inp out, inp ∈ ins → out ∈ outs →
     adj (G a') !! (inp.1, out.1) = Some {| tx_id := tx; value := out.2; date := tx_date |}) ∧
  (NoDup ins.*1 → NoDup outs.*1 →
   (∀ inp out, inp ∈ ins → out ∈ outs → adj (G a) !! (inp.1, out.1) = None) →
   size (adj (G a')) = size (adj (G a)) + length ins * length outs) ∧
  (∀ w, default 0%float (wallet_balances a' !! w)
        = foldl PrimFloat.add (default 0%float (wallet_balances a !! w))
            (contributions w pairs)).
Proof.
  intros Hr Hin Hout Hins Houts pairs a'.
  assert (∀ inp out, inp ∈ ins → out ∈ outs →
            ∃ out', out' ∈ outs ∧ out'.1 = out.1 ∧
              adj (G a') !! (inp.1, out.1)
              = Some {| tx_id := tx; value := out'.2; date := tx_date |}) as Hedge.
  { intros inp out Hi Ho. unfold a'. rewrite fold_pair_step_adj.
    destruct (foldl_insert_lookup
                (λ p : (string * sqlval) * (string * sqlval), (p.1.1, p.2.1))
                (λ p, {| tx_id := tx; value := p.2.2; date := tx_date |})
                pairs (adj (G (entered tx (head_queries tx) a))) (inp.1, out.1))
      as [([inp' out'] & Hp & Hk & Hl)|[Hall _]].
    - apply elem_of_list_prod in Hp as [_ Ho']. cbn in Hk. injection Hk as _ Hk.
      exists out'. by split_and!.
    - destruct (Hall (inp, out)); [|done]. by apply elem_of_list_prod. }
  split_and!.
  - rewrite (expand_head_emits _ _ _ _ Hr), Hin, Hout. cbn zeta.
    by rewrite emit_edges_fold.
  - apply length_prod.
  - exact Hedge.
  - intros Hnd inp out Hi Ho. destruct (Hedge inp out Hi Ho) as ([r ov'] & Ho' & Hr' & ->).
    cbn in Hr'. subst r. destruct out as [r ov]. cbn.
    by rewrite (NoDup_fst_agree outs r ov' ov Hnd Ho' Ho).
  - intros Hnd1 Hnd2 Hfresh. unfold a'. rewrite fold_pair_step_adj.
    rewrite <- !size_dom, foldl_insert_dom. cbn [entered logged mark_visited G adj].
    rewrite size_union.
    + f_equal. rewrite size_list_to_set.
      * rewrite length_fmap. apply length_prod.
      * unfold pairs. rewrite (list_prod_fmap fst fst). by apply NoDup_list_prod.
    + intros [s r] Hdom Hkey. apply elem_of_dom in Hdom as [e He].
      apply elem_of_list_to_set, list_elem_of_fmap in Hkey as ([inp out] & [= -> ->] & Hp).
      apply elem_of_list_prod in Hp as [Hi Ho]. by rewrite (Hfresh inp out Hi Ho) in He.
  - intros w. unfold a'. by rewrite fold_pair_step_balance.
Qed.

(** ** Where an edge comes from *)

(** The edge from [u] to [v] with attributes [e] was emitted for a visited
    transaction: [u] is the address of one of its input records, [v] and the
    value those of one of its output records, and the date is its parsed
    time. *)
Definition edge_ok a (u v : string) (e : edge_attrs) : Prop :=
  tx_id e ∈ visited_transactions a ∧
  (∃ iv, (Some u, iv) ∈ select_inputs (db conn) (tx_id e)) ∧
  (Some v, value e) ∈ select_outputs (db conn) (tx_id e) ∧
  (∃ row, select_transact (db conn) (tx_id e) = Some row ∧
          parse_tx_date (time row) = Some (date e)).

Definition edges_ok a : Prop :=
  ∀ u v e, adj (G a) !! (u, v) = Some e → edge_ok a u v e.

Definition keeps_edges_ok : relation analyzer := λ a a', edges_ok a → edges_ok a'.

Global Instance keeps_edges_ok_preorder : PreOrder keeps_edges_ok.
Proof.
  split; [intros a Ha; exact Ha|]. intros a1 a2 a3 H12 H23 H1. apply H23, H12, H1.
Qed.

(** A step that leaves the edges alone and forgets no visited transaction. *)
Lemma same_adj_keeps_edges_ok a a' :
  adj (G a') = adj (G a) → visited_transactions a ⊆ visited_transactions a' →
  keeps_edges_ok a a'.
Proof.
  intros Hadj Hvis Hok u v e He. rewrite Hadj in He.
  destruct (Hok u v e He) as (Hv & Hi & Ho & Hd). split_and!; try done. set_solver.
Qed.

Lemma emit_pair_edges_ok tx row tx_date inp out a :
  select_transact (db conn) tx = Some row → parse_tx_date (time row) = Some tx_date →
  inp ∈ select_inputs (db conn) tx → out ∈ select_outputs (db conn) tx →
  tx ∈ visited_transactions a →
  keeps_edges_ok a (emit_pair tx tx_date inp out a).2.
Proof.
  intros Hrow Hdate Hinp Hout Hvis.
  destruct inp as [[s|] iv], out as [[r|] ov];
    try (apply same_adj_keeps_edges_ok; cbn; [by rewrite ?add_node_adj|done]).
  assert (∀ a', adj (G a') = <[(s, r) := {| tx_id := tx; value := ov; date := tx_date |}]>
                               (adj (G a)) →
                visited_transactions a' = visited_transactions a → keeps_edges_ok a a')
    as Hstep.
  { intros a' Hadj Hv Hok u v e. rewrite Hadj. unfold edge_ok. rewrite Hv.
    destruct (decide ((s, r) = (u, v))) as [[= <- <-]|Hne].
    - rewrite lookup_insert_eq. intros [= <-]. cbn.
      split; [done|]. split; [by exists iv|]. split; [done|]. by exists row.
    - rewrite lookup_insert_ne by done. apply Hok. }
  unfold emit_pair. destruct (py_float iv) as [e|x]; [|destruct (py_float ov) as [e|y]];
    cbn [fst snd]; apply Hstep;
    cbn [G set_G _update_wallet_balance visited_transactions]; by rewrite ?add_edge_adj.
Qed.

Lemma expand_head_edges_ok tx a : keeps_edges_ok a (expand_head tx a).1.2.
Proof.
  destruct (expand_head_cases tx a) as [(row & tx_date & Hr)|Hno].
  - rewrite (expand_head_emits _ _ _ _ Hr). cbn [fst snd].
    destruct Hr as (Hrow & Hdate & _).
    transitivity (entered tx (head_queries tx) a).
    { apply same_adj_keeps_edges_ok; cbn; [done|set_solver]. }
    unfold emit_edges.
    apply (for_each_inv (λ a1, keeps_edges_ok (entered tx (head_queries tx) a) a1 ∧
                               tx ∈ visited_transactions a1)).
    { split; [done|cbn; set_solver]. }
    intros inp a1 Hinp Ha1.
    apply (for_each_inv (λ a2, keeps_edges_ok (entered tx (head_queries tx) a) a2 ∧
                               tx ∈ visited_transactions a2)); [done|].
    intros out a2 Hout [Hk Hv]. split.
    + etrans; [exact Hk|]. by apply (emit_pair_edges_ok tx row).
    + by destruct (emit_pair_frame tx tx_date inp out a2) as [-> _].
  - destruct (expand_head_skips _ _ Hno) as (delta & _ & _ & ->).
    apply same_adj_keeps_edges_ok; cbn; [done|set_solver].
Qed.

(** C9.  Every edge of the graph joins two addresses, the sender taken from
    an input record and the receiver and the value from an output record of
    one and the same visited transaction: a call of the traversal, however it
    ends, keeps this true of every edge, on every ledger.  (An input or
    output record without address makes [add_edge] raise before it adds an
    edge.) *)
Theorem edges_join_addresses_of_one_transaction fuel tx d m a :
  edges_ok a → edges_ok (_process_transaction conn fuel tx d m a).2.
Proof.
  apply (process_preserves keeps_edges_ok).
  - intros tx' a' _. apply expand_head_edges_ok.
  - intros r a'. by apply same_adj_keeps_edges_ok.
Qed.

Lemma build_edges_ok fuel target m a :
  edges_ok a → edges_ok (build_graph conn fuel target m a).2.
Proof.
  apply (build_preserves keeps_edges_ok).
  - intros tx' a' _. apply expand_head_edges_ok.
  - intros r a'. by apply same_adj_keeps_edges_ok.
  - intros t a'. by apply same_adj_keeps_edges_ok.
  - intros a'. by apply same_adj_keeps_edges_ok.
Qed.

Lemma new_analyzer_edges_ok : edges_ok new_analyzer.
Proof. intros u v e He. cbn in He. by rewrite lookup_empty in He. Qed.

(** ** Termination *)

(** The transactions a successor lookup can return. *)
Definition spenders (l : ledger) : gset string :=
  list_to_set (omap spending_transaction_hash (INPUTS l)).

Lemma select_spending_spenders (l : ledger) r h : h ∈ select_spending l r → h ∈ spenders l.
Proof.
  unfold select_spending, spenders. destruct r as [addr|]; [|by intros ?%elem_of_nil].
  rewrite elem_of_list_to_set, !list_elem_of_omap. intros (row & Hrow & Hh).
  apply list_elem_of_filter in Hrow as [_ Hrow]. by exists row.
Qed.

Lemma remaining_mono (C V V' : gset string) : V ⊆ V' → (size (C ∖ V') ≤ size (C ∖ V))%nat.
Proof. intros HV. apply subseteq_size. set_solver. Qed.

Lemma remaining_decreases (C V : gset string) tx :
  tx ∈ C → tx ∉ V → (size (C ∖ ({[tx]} ∪ V)) < size (C ∖ V))%nat.
Proof. intros HC HV. apply subset_size. set_solver. Qed.

(** With more fuel than there are transactions left to visit, a call does not
    starve. *)
Lemma process_terminates (C : gset string) :
  spenders (db conn) ⊆ C →
  ∀ fuel tx d m a,
    tx ∈ C → (size (C ∖ visited_transactions a) < fuel)%nat →
    (_process_transaction conn fuel tx d m a).1 ≠ Starved.
Proof.
  intros HC. induction fuel as [|fuel IH]; intros tx d m a Htx Hfuel; [lia|].
  rewrite process_S. destruct (decide (tx ∈ visited_transactions a)) as [|Hnew]; [done|].
  pose proof (expand_head_never_starves tx a) as Hhead.
  pose proof (expand_head_visited tx a) as Hvis.
  destruct (expand_head tx a) as [[o a1] outs]. cbn [fst snd] in *.
  destruct o, outs as [outputs|]; try done.
  destruct (depth_allows d m); [|done].
  assert (size (C ∖ visited_transactions a1) < fuel)%nat as Hleft.
  { rewrite Hvis. pose proof (remaining_decreases C _ tx Htx Hnew). lia. }
  apply (for_each_outcome (λ a2, visited_transactions a1 ⊆ visited_transactions a2)
           (λ o, o ≠ Starved)); [done..|].
  intros output a2 _ Ha2. unfold follow. rewrite execute_unfold.
  destruct (fails_at a2 0); [by split|].
  apply (for_each_outcome (λ a3, visited_transactions a1 ⊆ visited_transactions a3)
           (λ o, o ≠ Starved)); [done..|].
  intros next a3 Hnext Ha3. split.
  - etrans; [exact Ha3|]. apply process_grows.
  - apply IH.
    + by apply HC, (select_spending_spenders _ (fst output)).
    + pose proof (remaining_mono C _ _ Ha3). lia.
Qed.

(** The transactions a build can visit: its seeds and the spenders. *)
Definition candidates (target : string) : gset string :=
  {[target]} ∪ list_to_set (select_wallet (db conn) target) ∪ spenders (db conn).

Lemma build_terminates fuel target m a :
  (size (candidates target ∖ visited_transactions a) < fuel)%nat →
  (build_graph conn fuel target m a).1 ≠ Starved.
Proof.
  intros Hfuel. unfold build_graph. destruct (decide (String.length target = 64)).
  - pose proof (process_terminates (candidates target) ltac:(set_solver) fuel target 1 m a
                  ltac:(set_solver) Hfuel) as Hrun.
    by destruct (_process_transaction conn fuel target 1 m a) as [[] a1].
  - rewrite execute_unfold. destruct (fails_at a 0); [done|].
    assert ((for_each (select_wallet (db conn) target)
               (λ tx_hash, _process_transaction conn fuel tx_hash 1 m)
               (logged [SelectWallet target] a)).1 ≠ Starved) as Hloop.
    { apply (for_each_outcome (λ a1, visited_transactions a ⊆ visited_transactions a1)
               (λ o, o ≠ Starved)); [done..|].
      intros t a1 Ht Ha1. split.
      - etrans; [exact Ha1|]. apply process_grows.
      - apply (process_terminates (candidates target)); [set_solver|set_solver|].
        pose proof (remaining_mono (candidates target) _ _ Ha1). lia. }
    by destruct (for_each _ _ _) as [[] a1].
Qed.

(** More fuel does not change a call that did not starve. *)
Lemma process_fuel_irrelevant fuel fuel' tx d m a :
  (_process_transaction conn fuel tx d m a).1 ≠ Starved → (fuel ≤ fuel')%nat →
  _process_transaction conn fuel' tx d m a = _process_transaction conn fuel tx d m a.
Proof.
  revert fuel' tx d m a. induction fuel as [|fuel IH]; intros fuel' tx d m a Hrun Hle;
    [done|].
  destruct fuel' as [|fuel']; [lia|]. rewrite !process_S in *.
  destruct (decide (tx ∈ visited_transactions a)); [done|].
  destruct (expand_head tx a) as [[[] a1] [outputs|]]; try done.
  destruct (depth_allows d m); [|done].
  apply for_each_agree; [|done].
  intros output a2 _. unfold follow. destruct (execute conn _ a2) as [[] a3]; [done|].
  intros Hinner. apply for_each_agree; [|done].
  intros next a4 _ Hnext. apply IH; [done|lia].
Qed.

(** ** Which failures stay local *)

(** No exception has been raised. *)
Definition quiet (o : outcome) : Prop := ∀ e, o ≠ Raised e.

(** Every input and output row of the ledger has an address, and a value
    [float] accepts: the emission of edges cannot raise. *)
Definition emission_safe (l : ledger) : Prop :=
  (∀ row, row ∈ INPUTS l → is_Some (in_recipient row) ∧ convertible (in_value row)) ∧
  (∀ row, row ∈ OUTPUTS l → is_Some (out_recipient row) ∧ convertible (out_value row)).

Lemma emit_edges_safe tx tx_date a :
  emission_safe (db conn) →
  (emit_edges tx tx_date (select_inputs (db conn) tx) (select_outputs (db conn) tx) a).1
  = Returned.
Proof.
  intros [Hin Hout]. unfold emit_edges.
  apply (for_each_outcome (λ _, True) (λ o, o = Returned)); [done..|].
  intros inp a1 Hinp _.
  apply (for_each_outcome (λ _, True) (λ o, o = Returned)); [done..|].
  intros out a2 Hout' _. split; [done|].
  apply list_elem_of_fmap in Hinp as (irow & -> & Hirow%list_elem_of_filter).
  apply list_elem_of_fmap in Hout' as (orow & -> & Horow%list_elem_of_filter).
  destruct (Hin irow (proj2 Hirow)) as [[s Hs] Hiv].
  destruct (Hout orow (proj2 Horow)) as [[r Hr] Hov].
  rewrite Hs, Hr. by rewrite (emit_pair_step tx tx_date (s, in_value irow) (r, out_value orow)).
Qed.

Lemma expand_head_safe tx a : emission_safe (db conn) → (expand_head tx a).1.1 = Returned.
Proof.
  intros Hsafe. destruct (expand_head_cases tx a) as [(row & tx_date & Hr)|Hno].
  - rewrite (expand_head_emits _ _ _ _ Hr). cbn [fst snd]. by apply emit_edges_safe.
  - by destruct (expand_head_skips _ _ Hno) as (delta & _ & _ & ->).
Qed.

Lemma process_safe fuel tx d m a :
  emission_safe (db conn) → quiet (_process_transaction conn fuel tx d m a).1.
Proof.
  intros Hsafe. revert tx d m a. induction fuel as [|fuel IH]; intros tx d m a; [done|].
  rewrite process_S. destruct (decide (tx ∈ visited_transactions a)); [done|].
  pose proof (expand_head_safe tx a Hsafe) as Hhead.
  destruct (expand_head tx a) as [[o a1] outs]. cbn [fst snd] in Hhead. subst o.
  destruct outs as [outputs|]; [|done]. destruct (depth_allows d m); [|done].
  apply (for_each_outcome (λ _, True) quiet); [done..|].
  intros output a2 _ _. split; [done|]. unfold follow.
  destruct (execute conn _ a2) as [[] a3]; [done|].
  apply (for_each_outcome (λ _, True) quiet); [done..|].
  intros next a4 _ _. split; [done|]. apply IH.
Qed.

Lemma build_safe fuel target m a :
  emission_safe (db conn) → quiet (build_graph conn fuel target m a).1.
Proof.
  intros Hsafe. unfold build_graph. destruct (decide (String.length target = 64)).
  - pose proof (process_safe fuel target 1 m a Hsafe) as Hrun.
    by destruct (_process_transaction conn fuel target 1 m a) as [[] a1].
  - destruct (execute conn _ a) as [[] a1]; [done|].
    assert (quiet (for_each (select_wallet (db conn) target)
                     (λ tx_hash, _process_transaction conn fuel tx_hash 1 m) a1).1) as Hloop.
    { apply (for_each_outcome (λ _, True) quiet); [done..|].
      intros t a2 _ _. split; [done|]. by apply process_safe. }
    by destruct (for_each _ _ a1) as [[] a2].
Qed.



(** ** Each transaction is expanded at most once *)

(** The transaction a statement is about. *)
Definition about (q : query) : option string :=
  match q with
  | SelectTransact h | SelectInputs h | SelectOutputs h => Some h
  | SelectSpending _ | SelectWallet _ => None
  end.

(** From [a] to [a'] nothing was removed, every statement about a transaction
    concerns a transaction that was not visited in [a] and is visited in
    [a'], and no such statement was executed twice. *)
Record disciplined (a a' : analyzer) : Prop := {
  disciplined_grows : grows a a';
  disciplined_new : ∀ q h, q ∈ issued a a' → about q = Some h →
                           h ∈ visited_transactions a' ∧ h ∉ visited_transactions a;
  disciplined_once : NoDup (filter (λ q, is_Some (about q)) (issued a a'))
}.

Lemma issued_refl a : issued a a = [].
Proof. apply issued_app. by rewrite app_nil_r. Qed.

Lemma issued_trans a1 a2 a3 :
  grows a1 a2 → grows a2 a3 → issued a1 a3 = issued a1 a2 ++ issued a2 a3.
Proof.
  intros H12 H23. apply issued_app.
  by rewrite (grows_issued _ _ H23), (grows_issued _ _ H12) at 1; rewrite app_assoc.
Qed.

Global Instance disciplined_preorder : PreOrder disciplined.
Proof.
  split.
  - intros a. split; [done|rewrite issued_refl..].
    + by intros q h ?%elem_of_nil.
    + constructor.
  - intros a1 a2 a3 [G12 N12 O12] [G23 N23 O23].
    pose proof (grows_visited _ _ G12) as V12. pose proof (grows_visited _ _ G23) as V23.
    split; [by etrans|rewrite (issued_trans a1 a2 a3) by done..].
    + intros q h [Hq|Hq]%elem_of_app Hh.
      * destruct (N12 q h Hq Hh). split; [set_solver|done].
      * destruct (N23 q h Hq Hh). split; [done|set_solver].
    + rewrite filter_app. apply NoDup_app. split_and!; [done| |done].
      intros q [[h Hh] Hq1]%list_elem_of_filter [_ Hq2]%list_elem_of_filter.
      destruct (N12 q h Hq1 Hh) as [Hin _]. destruct (N23 q h Hq2 Hh) as [_ Hout]. done.
Qed.

Lemma head_queries_NoDup tx : NoDup (head_queries tx).
Proof. unfold head_queries. repeat constructor; set_solver. Qed.

Lemma expand_head_disciplined tx a :
  tx ∉ visited_transactions a → disciplined a (expand_head tx a).1.2.
Proof.
  intros Hnew. destruct (expand_head_issued tx a) as [[k Hk] _].
  split; [apply expand_head_grows| |].
  - intros q h Hq Hh. rewrite expand_head_visited.
    assert (q ∈ head_queries tx) as Hall by (rewrite Hk; set_solver).
    assert (h = tx) as ->.
    { unfold head_queries in Hall. set_unfold. destruct Hall as [->|[->|[->|[]]]];
        cbn in Hh; congruence. }
    split; [set_solver|done].
  - apply NoDup_filter. pose proof (head_queries_NoDup tx) as Hnd.
    rewrite Hk in Hnd. by apply NoDup_app in Hnd as [? _].
Qed.

Lemma quiet_statement_disciplined q a :
  about q = None → disciplined a (execute conn q a).2.
Proof.
  intros Hq. split; [apply execute_grows|rewrite execute_unfold; cbn [snd]..];
    rewrite (issued_app a (logged [q] a) [q] eq_refl).
  - intros q' h ->%list_elem_of_singleton. congruence.
  - cbn. rewrite Hq. destruct (decide _) as [[? [=]]|]. constructor.
Qed.

Lemma assign_node_attributes_disciplined a : disciplined a (assign_node_attributes a).
Proof.
  split; [apply assign_node_attributes_grows|..];
    rewrite (issued_app a (assign_node_attributes a) [])
      by (cbn; by rewrite app_nil_r).
  - by intros q h ?%elem_of_nil.
  - constructor.
Qed.

Lemma process_disciplined fuel tx d m a :
  disciplined a (_process_transaction conn fuel tx d m a).2.
Proof.
  apply process_preserves; [apply _| |]; intros.
  - by apply expand_head_disciplined.
  - by apply quiet_statement_disciplined.
Qed.

Lemma build_disciplined fuel target m a : disciplined a (build_graph conn fuel target m a).2.
Proof.
  apply build_preserves; [apply _| | | |]; intros.
  - by apply expand_head_disciplined.
  - by apply quiet_statement_disciplined.
  - by apply quiet_statement_disciplined.
  - apply assign_node_attributes_disciplined.
Qed.

Lemma follow_grows fuel d m output a : grows a (follow fuel d m output a).2.
Proof.
  unfold follow. pose proof (execute_grows (SelectSpending output.1) a) as Hq.
  destruct (execute conn _ a) as [[] a1]; [done|]. cbn [snd] in Hq.
  apply (for_each_inv (grows a)); [done|].
  intros next a2 _ Ha2. etrans; [exact Ha2|]. apply process_grows.
Qed.

(** A call that has fuel marks its transaction. *)
Lemma process_marks fuel tx d m a :
  tx ∈ visited_transactions (_process_transaction conn (S fuel) tx d m a).2.
Proof.
  rewrite process_S. destruct (decide (tx ∈ visited_transactions a)); [done|].
  pose proof (expand_head_visited tx a) as Hvis.
  destruct (expand_head tx a) as [[o a1] outs]. cbn [fst snd] in Hvis.
  assert (tx ∈ visited_transactions a1) as Htx by set_solver.
  destruct o, outs as [outputs|]; try done. destruct (depth_allows d m); [|done].
  apply (for_each_inv (λ a2, tx ∈ visited_transactions a2)); [done|].
  intros output a2 _ Ha2. by apply (grows_visited _ _ (follow_grows fuel (d + 1) m output a2)).
Qed.

(** C2.  A call of the traversal does not starve once its fuel exceeds the
    number of transactions left to visit, on every ledger, cyclic or not;
    more fuel does not change its result.  The statements it executes about
    transactions are pairwise distinct and concern transactions that were not
    visited before: no transaction is expanded twice.  A call on a visited
    transaction returns at once and changes nothing, so a second call on the
    same transaction emits no edge and updates no balance. *)
Theorem traversal_terminates_and_expands_once fuel tx d m a :
  let r := _process_transaction conn fuel tx d m a in
  ((size (({[tx]} ∪ spenders (db conn)) ∖ visited_transactions a) < fuel)%nat →
   r.1 ≠ Starved) ∧
  (r.1 ≠ Starved → ∀ fuel', (fuel ≤ fuel')%nat → _process_transaction conn fuel' tx d m a = r) ∧
  NoDup (filter (λ q, is_Some (about q)) (issued a r.2)) ∧
  (∀ q h, q ∈ issued a r.2 → about q = Some h →
          h ∈ visited_transactions r.2 ∧ h ∉ visited_transactions a) ∧
  (tx ∈ visited_transactions a → (0 < fuel)%nat → r = (Returned, a)) ∧
  ((0 < fuel)%nat → ∀ fuel2 d2 m2,
     _process_transaction conn (S fuel2) tx d2 m2 r.2 = (Returned, r.2)).
Proof.
  cbn zeta. destruct (process_disciplined fuel tx d m a) as [_ Hnew Honce]. split_and!.
  - apply process_terminates; set_solver.
  - intros Hrun fuel' Hle. by apply process_fuel_irrelevant.
  - exact Honce.
  - exact Hnew.
  - intros Hin Hfuel. destruct fuel as [|fuel]; [lia|].
    rewrite process_S. by destruct (decide _).
  - intros Hfuel fuel2 d2 m2. destruct fuel as [|fuel]; [lia|].
    pose proof (process_marks fuel tx d m a) as Hin.
    rewrite (process_S fuel2). by destruct (decide _).
Qed.

(** ** How far the traversal goes *)

(** The transaction has a record whose time parses. *)
Definition expandable h : Prop :=
  ∃ row tx_date, select_transact (db conn) h = Some row ∧
                 parse_tx_date (time row) = Some tx_date.

(** [h'] is a successor of [h]: a successor lookup for an output of the
    expandable transaction [h] returns it. *)
Definition successor h h' : Prop :=
  expandable h ∧
  ∃ out, out ∈ select_outputs (db conn) h ∧ h' ∈ select_spending (db conn) out.1.

(** No statement fails. *)
Definition reliable_conn : Prop := ∀ n, sql_fails conn n = false.

(** [h'] is at most [n] successor hops away from [h]. *)
Inductive within : nat → string → string → Prop :=
  | within_here n h : within n h h
  | within_step n h h1 h2 : successor h h1 → within n h1 h2 → within (S n) h h2.

Lemma process_returned_grows fuel tx d m a a' :
  _process_transaction conn fuel tx d m a = (Returned, a') → grows a a'.
Proof. intros Hrun. pose proof (process_grows fuel tx d m a) as Hg. by rewrite Hrun in Hg. Qed.

Lemma follow_returned_grows fuel d m output a a' :
  follow fuel d m output a = (Returned, a') → grows a a'.
Proof. intros Hrun. pose proof (follow_grows fuel d m output a) as Hg. by rewrite Hrun in Hg. Qed.

(** Without a depth bound and without failing statements, a call that
    returns has visited every successor of every transaction it has newly
    visited. *)
Lemma process_closed :
  reliable_conn →
  ∀ fuel tx d a a',
    _process_transaction conn fuel tx d 0 a = (Returned, a') →
    ∀ h h', h ∈ visited_transactions a' → h ∉ visited_transactions a →
            successor h h' → h' ∈ visited_transactions a'.
Proof.
  intros Hrel. induction fuel as [|fuel IH]; intros tx d a a' Hrun h h' Hh Hnew Hsucc;
    [by rewrite process_O in Hrun|].
  rewrite process_S in Hrun.
  destruct (decide (tx ∈ visited_transactions a)) as [|Htx]; [by injection Hrun as <-|].
  destruct (expand_head_cases tx a) as [(row & tx_date & Hr)|Hno]; cycle 1.
  { destruct (expand_head_skips _ _ Hno) as (delta & _ & _ & Hhead). rewrite Hhead in Hrun.
    injection Hrun as <-. cbn in Hh.
    assert (h = tx) as -> by set_solver.
    destruct Hsucc as [(row & tx_date & Hrow & Hdate) _].
    destruct (Hno row tx_date). unfold reaches_emission, fails_at. by rewrite !Hrel. }
  rewrite (expand_head_emits _ _ _ _ Hr) in Hrun. cbn zeta in Hrun.
  pose proof (emit_edges_frame tx tx_date (select_inputs (db conn) tx)
                (select_outputs (db conn) tx) (entered tx (head_queries tx) a)) as [Hvis _].
  destruct (emit_edges tx tx_date _ _ _) as [o a1]. cbn [fst snd] in *.
  destruct o; try discriminate.
  change (depth_allows d 0) with true in Hrun. cbn [entered logged mark_visited
    visited_transactions] in Hvis.
  set (I := λ a2, visited_transactions a1 ⊆ visited_transactions a2 ∧
                  ∀ k k', k ∈ visited_transactions a2 → k ∉ visited_transactions a →
                          k ≠ tx → successor k k' → k' ∈ visited_transactions a2).
  assert (I a1) as Ha1.
  { split; [done|]. intros k k' Hk Hk0 Hktx. rewrite Hvis in Hk. set_solver. }
  destruct (for_each_returned I
              (λ out a2, ∀ k', k' ∈ select_spending (db conn) out.1 →
                               k' ∈ visited_transactions a2)
              _ _ _ _ Hrun Ha1) as [[Hsub Hclosed] Hposts].
  - (* one output row *)
    intros out a2 a3 _ Ha2 Hfollow. unfold follow in Hfollow.
    rewrite execute_unfold in Hfollow. unfold fails_at in Hfollow. rewrite Hrel in Hfollow.
    assert (I (logged [SelectSpending out.1] a2)) as Ha2' by exact Ha2.
    destruct (for_each_returned I (λ next a4, next ∈ visited_transactions a4)
                _ _ _ _ Hfollow Ha2') as [Ha3 Hnexts]; [| |by split].
    + intros next a4 a5 _ [Hsub4 Hcl4] Hcall.
      pose proof (grows_visited _ _ (process_returned_grows _ _ _ _ _ _ Hcall)) as H45.
      split; [split; [set_solver|]|].
      * intros k k' Hk Hk0 Hktx Hkk'.
        destruct (decide (k ∈ visited_transactions a4)) as [Hk4|Hk4].
        -- apply H45. by apply (Hcl4 k k').
        -- by apply (IH next (d + 1)%Z a4 a5 Hcall k k').
      * destruct fuel as [|fuel']; [by rewrite process_O in Hcall|].
        pose proof (process_marks fuel' next (d + 1) 0 a4) as Hm. by rewrite Hcall in Hm.
    + intros next next' a4 a5 _ _ Hcall Hin.
      by apply (grows_visited _ _ (process_returned_grows _ _ _ _ _ _ Hcall)).
  - (* what was visited stays visited *)
    intros out out' a2 a3 _ _ Hfollow Hpost k' Hk'.
    apply (grows_visited _ _ (follow_returned_grows _ _ _ _ _ _ Hfollow)). by apply Hpost.
  - destruct (decide (h = tx)) as [->|Hne].
    + destruct Hsucc as [_ (out & Hout & Hh')]. by apply (Hposts out).
    + by apply (Hclosed h h').
Qed.

(** With a depth bound, a transaction a call newly visits is at most as many
    successor hops away as the bound leaves. *)
Lemma process_within m :
  (m ≠ 0)%Z →
  ∀ fuel tx d a h,
    h ∈ visited_transactions (_process_transaction conn fuel tx d m a).2 →
    h ∉ visited_transactions a →
    within (Z.to_nat (m - d)) tx h.
Proof.
  intros Hm. induction fuel as [|fuel IH]; intros tx d a h Hh Hnew; [done|].
  rewrite process_S in Hh.
  destruct (decide (tx ∈ visited_transactions a)) as [|Htx]; [done|].
  pose proof (expand_head_visited tx a) as Hvis.
  destruct (expand_head tx a) as [[o a1] outs] eqn:Hhead. cbn [fst snd] in Hvis.
  assert (∀ k, k ∈ visited_transactions a1 → k ∉ visited_transactions a →
               within (Z.to_nat (m - d)) tx k) as Hbase.
  { intros k Hin Hk. rewrite Hvis in Hin. assert (k = tx) as -> by set_solver. constructor. }
  destruct outs as [outputs|]; [|by destruct o; apply Hbase].
  destruct (expand_head_outputs _ _ _ _ _ Hhead) as (-> & -> & row & tx_date & Hrow & Hdate & _).
  destruct (depth_allows d m) eqn:Hd; [|by apply Hbase].
  assert (d < m)%Z as Hlt by (unfold depth_allows in Hd; lia).
  assert (Z.to_nat (m - d) = S (Z.to_nat (m - (d + 1)))) as -> by lia.
  revert h Hh Hnew.
  apply (for_each_inv (λ a2, ∀ h, h ∈ visited_transactions a2 → h ∉ visited_transactions a →
                                  within (S (Z.to_nat (m - (d + 1)))) tx h)).
  { intros k Hk Hknew. assert (Z.to_nat (m - d) = S (Z.to_nat (m - (d + 1)))) as <- by lia.
    by apply Hbase. }
  intros out a2 Hout Ha2. unfold follow. rewrite execute_unfold.
  destruct (fails_at a2 0); [exact Ha2|].
  apply (for_each_inv (λ a3, ∀ h, h ∈ visited_transactions a3 → h ∉ visited_transactions a →
                                  within (S (Z.to_nat (m - (d + 1)))) tx h)); [exact Ha2|].
  intros next a3 Hnext Ha3 h Hh Hnew.
  destruct (decide (h ∈ visited_transactions a3)) as [Hh3|Hh3]; [by apply Ha3|].
  apply (within_step _ tx next h).
  - split; [by exists row, tx_date|]. by exists out.
  - by apply (IH next (d + 1)%Z a3).
Qed.

(** C4.  Without depth bound (maximal depth 0) and without failing
    statements, a call that returns on an analyzer that had visited nothing
    has visited every transaction that can be reached from its transaction
    through successors: it went on until no successor was left unvisited.
    With a maximal depth other than 0, every transaction a call newly visits,
    and every transaction it executes a statement about, lies within
    (maximal depth - current depth) successor hops of its transaction; with a
    maximal depth of 1 and a seed at depth 1 that is the seed alone. *)
Theorem depth_bounding :
  (reliable_conn →
   ∀ fuel tx d a a',
     visited_transactions a = ∅ →
     _process_transaction conn fuel tx d 0 a = (Returned, a') →
     ∀ h, rtc successor tx h → h ∈ visited_transactions a') ∧
  (∀ fuel tx d m a h,
     (m ≠ 0)%Z →
     h ∈ visited_transactions (_process_transaction conn fuel tx d m a).2 →
     h ∉ visited_transactions a →
     within (Z.to_nat (m - d)) tx h) ∧
  (∀ fuel tx d m a q h,
     (m ≠ 0)%Z →
     q ∈ issued a (_process_transaction conn fuel tx d m a).2 → about q = Some h →
     within (Z.to_nat (m - d)) tx h) ∧
  (∀ fuel tx a,
     visited_transactions (_process_transaction conn fuel tx 1 1 a).2
       ⊆ {[tx]} ∪ visited_transactions a ∧
     ∀ q h, q ∈ issued a (_process_transaction conn fuel tx 1 1 a).2 → about q = Some h →
            h = tx).
Proof.
  assert (∀ tx h, within 0 tx h → h = tx) as Hzero.
  { intros tx h Hw. by inversion Hw. }
  split_and!.
  - intros Hrel fuel tx d a a' Hempty Hrun h Hreach.
    assert (tx ∈ visited_transactions a') as Htx.
    { destruct fuel as [|fuel]; [by rewrite process_O in Hrun|].
      pose proof (process_marks fuel tx d 0 a) as Hm. by rewrite Hrun in Hm. }
    assert (∀ k k', k ∈ visited_transactions a' → successor k k' →
                    k' ∈ visited_transactions a') as Hclosed.
    { intros k k' Hk. apply (process_closed Hrel fuel tx d a a' Hrun k k' Hk).
      rewrite Hempty. set_solver. }
    clear Hrun. induction Hreach as [tx|tx h1 h2 Hstep _ IH]; [done|].
    apply IH. by apply (Hclosed tx h1).
  - intros fuel tx d m a h Hm. by apply process_within.
  - intros fuel tx d m a q h Hm Hq Hh.
    destruct (process_disciplined fuel tx d m a) as [_ Hnew _].
    destruct (Hnew q h Hq Hh). by apply (process_within m Hm fuel tx d a h).
  - intros fuel tx a. split.
    + intros h Hh. destruct (decide (h ∈ visited_transactions a)); [set_solver|].
      rewrite (Hzero tx h); [set_solver|].
      by apply (process_within 1 ltac:(lia) fuel tx 1 a h).
    + intros q h Hq Hh. destruct (process_disciplined fuel tx 1 1 a) as [_ Hnew _].
      destruct (Hnew q h Hq Hh). apply Hzero.
      by apply (process_within 1 ltac:(lia) fuel tx 1 a h).
Qed.

(** * Further properties of the analyzer *)

(** ** The balance ledger (lines 37-41) *)

(** X1.  Crediting a wallet adds the amount to what the wallet held, 0.0 when
    it had no entry, and touches no other entry, nor the graph, nor the
    visited set; credits to two different wallets can be exchanged. *)
Theorem credit_adds_to_the_entry wallet amount a :
  let a' := _update_wallet_balance wallet amount a in
  wallet_balances a' !! wallet
    = Some (default 0%float (wallet_balances a !! wallet) + amount)%float ∧
  (∀ w, w ≠ wallet → wallet_balances a' !! w = wallet_balances a !! w) ∧
  dom (wallet_balances a') = {[wallet]} ∪ dom (wallet_balances a) ∧
  G a' = G a ∧ visited_transactions a' = visited_transactions a ∧
  (∀ w x, w ≠ wallet →
     _update_wallet_balance w x a' = _update_wallet_balance wallet amount
                                       (_update_wallet_balance w x a)).
Proof.
  cbn zeta. split_and!; try done.
  - apply lookup_insert_eq.
  - intros w Hw. by apply lookup_insert_ne.
  - apply dom_insert_L.
  - intros w x Hw. unfold _update_wallet_balance. cbn. f_equal.
    rewrite !lookup_insert_ne by done. by apply insert_insert_ne.
Qed.

(** ** A transaction that cannot be expanded (lines 52-89) *)

(** Why the head of a call does not reach the emission of edges: the record
    query fails, there is no record, its time does not parse, or the inputs
    or the outputs query fails. *)
Definition skip_cause tx a : Prop :=
  fails_at a 0 = true ∨
  select_transact (db conn) tx = None ∨
  (∃ row, select_transact (db conn) tx = Some row ∧ parse_tx_date (time row) = None) ∨
  fails_at a 1 = true ∨
  fails_at a 2 = true.

Lemma skip_cause_no_emission tx a :
  skip_cause tx a → ∀ row tx_date, ¬ reaches_emission tx a row tx_date.
Proof.
  intros Hcause row tx_date (Hrow & Hdate & H0 & H1 & H2).
  destruct Hcause as [?|[?|[(row' & ? & ?)|[?|?]]]]; congruence.
Qed.

(** X2.  When the record query fails, the record is missing, its time does
    not parse, or the inputs or outputs query fails, the call returns
    normally; the graph and the balances are untouched, no successor is
    looked up, and the transaction stays in the visited set: later calls in
    the same traversal do not try it again. *)
Theorem skipped_transaction_stays_visited fuel tx d m a :
  tx ∉ visited_transactions a → skip_cause tx a →
  let r := _process_transaction conn (S fuel) tx d m a in
  r.1 = Returned ∧ G r.2 = G a ∧ wallet_balances r.2 = wallet_balances a ∧
  visited_transactions r.2 = {[tx]} ∪ visited_transactions a ∧
  issued a r.2 `prefix_of` head_queries tx ∧
  ∀ fuel' d' m', _process_transaction conn (S fuel') tx d' m' r.2 = (Returned, r.2).
Proof.
  intros Hnew Hcause. cbn zeta. rewrite process_S.
  destruct (decide (tx ∈ visited_transactions a)) as [|_]; [done|].
  destruct (expand_head_skips tx a (skip_cause_no_emission tx a Hcause))
    as (delta & Hp & _ & ->).
  cbn [fst snd]. split_and!; try done.
  - by rewrite (issued_app a (entered tx delta a) delta eq_refl).
  - intros fuel' d' m'. rewrite process_S. destruct (decide _) as [|Hout]; [done|].
    destruct Hout. cbn. set_solver.
Qed.

(** ** The graph and the balances stay consistent (lines 91-101) *)

(** Both ends of every edge are nodes, and every wallet with a balance is a
    node. *)
Definition well_formed a : Prop :=
  (∀ u v, (u, v) ∈ dom (adj (G a)) → u ∈ dom (nodes (G a)) ∧ v ∈ dom (nodes (G a))) ∧
  dom (wallet_balances a) ⊆ dom (nodes (G a)).

Definition keeps_well_formed : relation analyzer := λ a a', well_formed a → well_formed a'.

Global Instance keeps_well_formed_preorder : PreOrder keeps_well_formed.
Proof.
  split; [intros a Ha; exact Ha|]. intros a1 a2 a3 H12 H23 H1. apply H23, H12, H1.
Qed.

Lemma same_graph_keeps_well_formed a a' :
  G a' = G a → wallet_balances a' = wallet_balances a → keeps_well_formed a a'.
Proof. intros HG Hb Hwf. unfold well_formed. by rewrite HG, Hb. Qed.

Lemma add_node_keeps_well_formed u a : keeps_well_formed a (set_G (add_node u (G a)) a).
Proof.
  intros [Hedges Hbal]. split; cbn [G set_G wallet_balances]; rewrite ?add_node_adj, add_node_nodes.
  - intros s r Hsr. destruct (Hedges s r Hsr). set_solver.
  - set_solver.
Qed.

Lemma add_edge_keeps_well_formed u v attr a :
  keeps_well_formed a (set_G (add_edge u v attr (G a)) a).
Proof.
  intros [Hedges Hbal]. split; cbn [G set_G wallet_balances]; rewrite ?add_edge_adj, add_edge_nodes.
  - intros s r. rewrite dom_insert_L, elem_of_union, elem_of_singleton.
    intros [[= -> ->]|Hsr]; [set_solver|]. destruct (Hedges s r Hsr). set_solver.
  - set_solver.
Qed.

Lemma credit_node_keeps_well_formed w x a :
  w ∈ dom (nodes (G a)) → keeps_well_formed a (_update_wallet_balance w x a).
Proof.
  intros Hw [Hedges Hbal]. split; cbn; [done|]. rewrite dom_insert_L. set_solver.
Qed.

Lemma emit_pair_keeps_well_formed tx tx_date inp out a :
  keeps_well_formed a (emit_pair tx tx_date inp out a).2.
Proof.
  destruct inp as [[s|] iv], out as [[r|] ov]; cbn [emit_pair snd]; try reflexivity.
  - set (attr := {| tx_id := tx; value := ov; date := tx_date |}).
    set (a1 := set_G (add_edge s r attr (G a)) a).
    assert (keeps_well_formed a a1) as H1 by apply add_edge_keeps_well_formed.
    assert (s ∈ dom (nodes (G a1)) ∧ r ∈ dom (nodes (G a1))) as [Hs Hr].
    { unfold a1. cbn [G set_G]. rewrite add_edge_nodes. set_solver. }
    destruct (py_float iv) as [e|x]; [exact H1|].
    assert (keeps_well_formed a (_update_wallet_balance s (- x)%float a1)) as H2.
    { etrans; [exact H1|]. by apply credit_node_keeps_well_formed. }
    destruct (py_float ov) as [e|y]; [exact H2|]. cbn [snd].
    etrans; [exact H2|]. by apply credit_node_keeps_well_formed.
  - apply add_node_keeps_well_formed.
Qed.

Lemma expand_head_keeps_well_formed tx a : keeps_well_formed a (expand_head tx a).1.2.
Proof.
  destruct (expand_head_cases tx a) as [(row & tx_date & Hr)|Hno].
  - rewrite (expand_head_emits _ _ _ _ Hr). cbn [fst snd].
    transitivity (entered tx (head_queries tx) a); [by apply same_graph_keeps_well_formed|].
    unfold emit_edges. apply (for_each_inv (keeps_well_formed _)); [done|].
    intros inp a1 _ Ha1. apply (for_each_inv (keeps_well_formed _)); [done|].
    intros out a2 _ Ha2. etrans; [exact Ha2|]. apply emit_pair_keeps_well_formed.
  - destruct (expand_head_skips _ _ Hno) as (delta & _ & _ & ->).
    by apply same_graph_keeps_well_formed.
Qed.

Lemma assign_node_attributes_nodes a :
  dom (nodes (G (assign_node_attributes a))) = dom (nodes (G a)).
Proof.
  apply set_eq. intros u. rewrite !elem_of_dom. cbn. rewrite map_lookup_imap.
  destruct (nodes (G a) !! u); cbn; split; intros [x Hx]; eauto; done.
Qed.

Lemma assign_node_attributes_keeps_well_formed a :
  keeps_well_formed a (assign_node_attributes a).
Proof.
  intros [Hedges Hbal]. split.
  - rewrite assign_node_attributes_nodes. exact Hedges.
  - rewrite assign_node_attributes_nodes. exact Hbal.
Qed.

(** X3.  Whatever a build does and however it ends, both ends of every edge
    of the graph are nodes of the graph, and every wallet that has an entry
    in the balance ledger is a node of the graph. *)
Theorem build_keeps_graph_and_balances_consistent fuel target m a :
  well_formed a → well_formed (build_graph conn fuel target m a).2.
Proof.
  apply (build_preserves keeps_well_formed).
  - intros tx a' _. apply expand_head_keeps_well_formed.
  - intros r a'. by apply same_graph_keeps_well_formed.
  - intros t a'. by apply same_graph_keeps_well_formed.
  - intros a'. apply assign_node_attributes_keeps_well_formed.
Qed.

Lemma new_analyzer_well_formed : well_formed new_analyzer.
Proof. split; cbn; [intros u v|]; set_solver. Qed.

(** ** The node attributes (lines 119-144) *)

(** The build went through the assignment of the node attributes: the target
    has 64 characters, or the address-mode statement did not fail. *)
Definition finalises (target : string) a : Prop :=
  String.length target = 64 ∨ fails_at a 0 = false.

Lemma build_graph_returned fuel target m a a' :
  build_graph conn fuel target m a = (Returned, a') → finalises target a →
  ∃ a1, a' = assign_node_attributes a1 ∧ grows a a1 ∧
        (String.length target ≠ 64 →
         for_each (select_wallet (db conn) target)
           (λ tx_hash, _process_transaction conn fuel tx_hash 1 m)
           (logged [SelectWallet target] a) = (Returned, a1)).
Proof.
  intros Hrun Hfin. destruct (build_graph_routes fuel target m a) as [Htx Haddr].
  destruct (decide (String.length target = 64)) as [Hlen|Hlen].
  - rewrite (Htx Hlen) in Hrun.
    pose proof (process_grows fuel target 1 m a) as Hg.
    destruct (_process_transaction conn fuel target 1 m a) as [[] a1]; try discriminate.
    injection Hrun as <-. by exists a1.
  - destruct Hfin as [?|Hok]; [done|]. rewrite (Haddr Hlen), Hok in Hrun.
    assert (grows a (for_each (select_wallet (db conn) target)
                       (λ tx_hash, _process_transaction conn fuel tx_hash 1 m)
                       (logged [SelectWallet target] a)).2) as Hg.
    { apply (for_each_inv (grows a)).
      - pose proof (execute_grows (SelectWallet target) a) as Hq.
        by rewrite execute_unfold in Hq.
      - intros t a2 _ Ha2. etrans; [exact Ha2|]. apply process_grows. }
    destruct (for_each _ _ _) as [[] a1]; try discriminate.
    injection Hrun as <-. by exists a1.
Qed.

(** X4.  After a build that returns and went through the assignment of the
    node attributes, every node of the graph carries as its balance the entry
    of the balance ledger for it, 0.0 when there is none, and the label made
    of the ends of its name and that balance. *)
Theorem nodes_carry_their_balance fuel target m a a' :
  build_graph conn fuel target m a = (Returned, a') → finalises target a →
  ∀ node, node ∈ dom (nodes (G a')) →
    let bal := default 0%float (wallet_balances a' !! node) in
    nodes (G a') !! node
    = Some {| balance := Some bal; label := Some (node_label node bal) |}.
Proof.
  intros Hrun Hfin node Hnode.
  destruct (build_graph_returned _ _ _ _ _ Hrun Hfin) as (a1 & -> & _ & _).
  apply elem_of_dom in Hnode as [attrs Hattrs]. cbn in *.
  rewrite map_lookup_imap in *. by destruct (nodes (G a1) !! node).
Qed.

(** When the address-mode statement fails, the build returns at once: the
    graph, the balances and the visited set are as before, and no node
    attribute is assigned. *)
Lemma failed_seed_query_changes_nothing fuel target m a :
  String.length target ≠ 64 → fails_at a 0 = true →
  let r := build_graph conn fuel target m a in
  r.1 = Returned ∧ G r.2 = G a ∧ wallet_balances r.2 = wallet_balances a ∧
  visited_transactions r.2 = visited_transactions a ∧
  executed r.2 = executed a ++ [SelectWallet target].
Proof.
  intros Hlen Hfail. cbn zeta.
  destruct (build_graph_routes fuel target m a) as [_ Haddr].
  by rewrite (Haddr Hlen), Hfail.
Qed.

(** X5.  In address mode, a build that returns has visited every transaction
    in which the target is the recipient of an input row or of an output
    row. *)
Theorem address_seeds_are_visited fuel target m a a' :
  String.length target ≠ 64 → fails_at a 0 = false →
  build_graph conn fuel target m a = (Returned, a') →
  ∀ h,
    (∃ row, row ∈ INPUTS (db conn) ∧ in_recipient row = Some target ∧
            in_transaction_hash row = h) ∨
    (∃ row, row ∈ OUTPUTS (db conn) ∧ out_recipient row = Some target ∧
            out_transaction_hash row = h) →
    h ∈ visited_transactions a'.
Proof.
  intros Hlen Hok Hrun h Hh.
  destruct (build_graph_returned _ _ _ _ _ Hrun (or_intror Hok)) as (a1 & -> & _ & Hloop).
  specialize (Hloop Hlen). apply (proj2 (select_wallet_union (db conn) target)) in Hh.
  destruct (for_each_returned (λ _, True) (λ t a2, t ∈ visited_transactions a2)
              _ _ _ _ Hloop I) as [_ Hall].
  - intros t a2 a3 _ _ Hcall. split; [done|].
    destruct fuel as [|fuel]; [by rewrite process_O in Hcall|].
    pose proof (process_marks fuel t 1 m a2) as Hm. by rewrite Hcall in Hm.
  - intros t t' a2 a3 _ _ Hcall Ht.
    by apply (grows_visited _ _ (process_returned_grows _ _ _ _ _ _ Hcall)).
  - by apply Hall.
Qed.

(** In address mode the first statement of a build is the address-mode
    statement. *)
Lemma build_address_mode_executed fuel target m a :
  String.length target ≠ 64 →
  ∃ rest, executed (build_graph conn fuel target m a).2
          = executed a ++ SelectWallet target :: rest.
Proof.
  intros Hlen. destruct (build_graph_routes fuel target m a) as [_ Haddr].
  rewrite (Haddr Hlen). destruct (fails_at a 0); [by exists []|].
  assert (grows (logged [SelectWallet target] a)
            (for_each (select_wallet (db conn) target)
               (λ tx_hash, _process_transaction conn fuel tx_hash 1 m)
               (logged [SelectWallet target] a)).2) as Hg.
  { apply (for_each_inv (grows _)); [done|].
    intros t a2 _ Ha2. etrans; [exact Ha2|]. apply process_grows. }
  destruct (grows_executed _ _ Hg) as [rest Hrest]. exists rest.
  destruct (for_each _ _ _) as [[] a1]; cbn [fst snd executed assign_node_attributes set_G] in *;
    rewrite Hrest; cbn; by rewrite <- app_assoc.
Qed.

End Properties.

(** * The entry point and the HTML export *)

Section EntryPoint.

Context {lib : pylib}.

(** X6.  [main] never expands its target as a transaction hash: whenever it
    exports a graph, the target has 34 or 62 characters, the depth parsed,
    the connection opened, the build returned on a new analyzer, and the
    first statement of that build is the address-mode statement for the
    target; the HTML page is written exactly when the depth is below 3. *)
Theorem main_builds_in_address_mode fuel cfg connect a html :
  main fuel cfg connect = Exported a html →
  ∃ target max_depth conn,
    Target cfg = Some target ∧
    (String.length target = 34 ∨ String.length target = 62) ∧
    int_of_text (default "0" (Depth cfg)) = Some max_depth ∧
    connect = Some conn ∧
    build_graph conn fuel target max_depth new_analyzer = (Returned, a) ∧
    (html = true ↔ (max_depth < 3)%Z) ∧
    ∃ rest, executed a = SelectWallet target :: rest.
Proof.
  unfold main. destruct (Target cfg) as [target|]; [|done].
  destruct (int_of_text (default "0" (Depth cfg))) as [max_depth|]; [|done].
  destruct (String.length target =? 34)%nat eqn:H34;
    [|destruct (String.length target =? 62)%nat eqn:H62; [|done]];
    cbn [orb negb]; (destruct connect as [conn|]; [|done]);
    destruct (build_graph conn fuel target max_depth new_analyzer) as [o a1] eqn:Hrun;
    (destruct o as [|[]|]; try done); intros [= <- <-];
    exists target, max_depth, conn.
  - apply Nat.eqb_eq in H34.
    destruct (build_address_mode_executed conn fuel target max_depth new_analyzer
                ltac:(lia)) as [rest Hrest].
    rewrite Hrun in Hrest. split_and!; try done; [by left|lia|by exists rest].
  - apply Nat.eqb_eq in H62.
    destruct (build_address_mode_executed conn fuel target max_depth new_analyzer
                ltac:(lia)) as [rest Hrest].
    rewrite Hrun in Hrest. split_and!; try done; [by right|lia|by exists rest].
Qed.

(** X7.  With a target of 34 or 62 characters, a depth that parses, a
    connection that opens and a ledger whose rows all have an address and a
    value that converts, [main] ends with an export, whichever statements
    fail: it reports no error. *)
Theorem main_exports_on_a_safe_ledger fuel cfg conn target max_depth :
  Target cfg = Some target →
  String.length target = 34 ∨ String.length target = 62 →
  int_of_text (default "0" (Depth cfg)) = Some max_depth →
  emission_safe (db conn) →
  (size (candidates conn target) < fuel)%nat →
  ∃ a, main fuel cfg (Some conn) = Exported a (negb (3 <=? max_depth)%Z) ∧
       build_graph conn fuel target max_depth new_analyzer = (Returned, a).
Proof.
  intros Ht Hlen Hd Hsafe Hfuel. unfold main. rewrite Ht, Hd.
  assert (negb ((String.length target =? 34)%nat || (String.length target =? 62)%nat) = false)
    as ->.
  { destruct Hlen as [-> | ->]; reflexivity. }
  pose proof (build_safe conn fuel target max_depth new_analyzer Hsafe) as Hquiet.
  assert (size (candidates conn target ∖ visited_transactions new_analyzer) < fuel)%nat
    as Hfuel'.
  { assert (candidates conn target ∖ visited_transactions new_analyzer
            = candidates conn target) as -> by (cbn; set_solver). done. }
  pose proof (build_terminates conn fuel target max_depth new_analyzer Hfuel') as Hends.
  destruct (build_graph conn fuel target max_depth new_analyzer) as [[|e|] a]; cbn in *.
  - by exists a.
  - by destruct (Hquiet e).
  - done.
Qed.

End EntryPoint.

(** ** [save_html_graph]: what the page is made of (lines 157-207) *)

Section HtmlExport.

(** [repr(x)] for a float, which [f"{data['value']}"] prints. *)
Variable float_repr : float -> string.

(** [node_roles.setdefault(node, set()).add(role)] *)
Definition add_role (node role : string) (roles : gmap string (gset string))
    : gmap string (gset string) :=
  <[node := {[role]} ∪ default ∅ (roles !! node)]> roles.

(** Lines 157-160: the roles of the nodes, from the edges.  (The loop runs
    over the edges in the order of the graph; the dictionary it builds does
    not depend on that order.) *)
Definition node_roles (g : DiGraph) : gmap string (gset string) :=
  foldl (λ roles e, add_role e.1.2 "receiver" (add_role e.1.1 "sender" roles)) ∅
    (map_to_list (adj g)).

(** Lines 164-170. *)
Definition node_color (roles : gset string) : string :=
  if decide (roles = {["sender"]}) then "#FF6B6B"
  else if decide (roles = {["receiver"]}) then "#66BB6A"
  else "#FFA726".

(** The entries of a node that depend on the graph. *)
Record vis_node : Set := {
  vn_id : string;
  vn_label : string;
  vn_title : string;
  vn_color : string
}.

(** [f"{node[:6]}...{node[-4:]}"] *)
Definition short_name (node : string) : string :=
  substring 0 6 node ++ "..." ++ substring (String.length node - 4) 4 node.

Definition html_node (g : DiGraph) (node : string) (data : node_attrs) : vis_node :=
  {| vn_id := node;
     vn_label := short_name node;
     vn_title := "Balance: " ++ format_8f (default 0%float (balance data)) ++ " BTC";
     vn_color := node_color (default ∅ (node_roles g !! node)) |}.

(** Lines 162-185: one entry per node.  The page lists the entries in the
    order in which the nodes were added; here they come in the order of the
    map, and nothing below depends on the order. *)
Definition html_nodes (g : DiGraph) : list vis_node :=
  (λ p, html_node g p.1 p.2) <$> map_to_list (nodes g).

(** [str(v)] for a value read from the database. *)
Definition py_str (v : sqlval) : string :=
  match v with
  | SqlNull => "None"
  | SqlInt z => pretty z
  | SqlReal f => float_repr f
  | SqlText s => s
  end.

(** The entries of an edge that depend on the graph. *)
Record vis_edge : Set := {
  ve_id : string;
  ve_from : string;
  ve_to : string;
  ve_title : string;
  ve_value : sqlval;
  ve_date : string;
  ve_tx_id : string
}.

(** [f"{u}_{v}_{data['tx_id']}"] *)
Definition edge_id (u v tx : string) : string := u ++ "_" ++ v ++ "_" ++ tx.

Definition html_edge (u v : string) (data : edge_attrs) : vis_edge :=
  {| ve_id := edge_id u v (tx_id data);
     ve_from := u;
     ve_to := v;
     ve_title := "TxID: " ++ substring 0 6 (tx_id data) ++ String (ascii_of_nat 10) "" ++
                 py_str (value data) ++ " BTC" ++ String (ascii_of_nat 10) "" ++
                 "Fecha: " ++ date data;
     ve_value := value data;
     ve_date := date data;
     ve_tx_id := tx_id data |}.

(** Lines 187-207: one entry per edge, in the order of the map. *)
Definition html_edges (g : DiGraph) : list vis_edge :=
  (λ p, html_edge p.1.1 p.1.2 p.2) <$> map_to_list (adj g).

(** The node has an edge leaving it, an edge reaching it. *)
Definition has_out (g : DiGraph) (node : string) : Prop := ∃ v, is_Some (adj g !! (node, v)).
Definition has_in (g : DiGraph) (node : string) : Prop := ∃ u, is_Some (adj g !! (u, node)).

Lemma add_role_lookup node role roles n r :
  r ∈ default ∅ (add_role node role roles !! n) ↔
  r ∈ default ∅ (roles !! n) ∨ (n = node ∧ r = role).
Proof.
  unfold add_role. destruct (decide (node = n)) as [->|Hne].
  - rewrite lookup_insert_eq. cbn. set_solver.
  - rewrite lookup_insert_ne by done. naive_solver.
Qed.

Lemma fold_roles_lookup {V} (l : list (string * string * V)) roles n r :
  r ∈ default ∅ (foldl (λ roles e, add_role e.1.2 "receiver" (add_role e.1.1 "sender" roles))
                   roles l !! n) ↔
  r ∈ default ∅ (roles !! n) ∨
  (r = "sender" ∧ ∃ e, e ∈ l ∧ e.1.1 = n) ∨
  (r = "receiver" ∧ ∃ e, e ∈ l ∧ e.1.2 = n).
Proof.
  revert roles. induction l as [|e l IH]; intros roles; cbn [foldl].
  - setoid_rewrite elem_of_nil. naive_solver.
  - rewrite IH, !add_role_lookup. setoid_rewrite elem_of_cons. naive_solver.
Qed.

Lemma node_roles_spec g n r :
  r ∈ default ∅ (node_roles g !! n) ↔
  (r = "sender" ∧ has_out g n) ∨ (r = "receiver" ∧ has_in g n).
Proof.
  unfold node_roles. rewrite fold_roles_lookup, lookup_empty. cbn.
  unfold has_out, has_in. split.
  - intros [?|[[-> ([[u v] d] & He & <-)]|[-> ([[u v] d] & He & <-)]]]; [set_solver|..];
      apply elem_of_map_to_list in He; cbn; [left|right]; split; eauto.
  - intros [[-> [v [d Hd]]]|[-> [u [d Hd]]]]; right; [left|right]; split; try done.
    + exists (n, v, d). split; [by apply elem_of_map_to_list|done].
    + exists (u, n, d). split; [by apply elem_of_map_to_list|done].
Qed.

Lemma color_codes_differ :
  "#FF6B6B" ≠ "#66BB6A" ∧ "#FF6B6B" ≠ "#FFA726" ∧ "#66BB6A" ≠ "#FFA726".
Proof. split_and!; discriminate. Qed.

(** X8.  On the page a node is red exactly when it only sends (it has an
    edge leaving it and none reaching it), green exactly when it only
    receives, and orange in every other case: when it does both, a self loop
    included, or has no edge at all. *)
Theorem node_color_tells_the_role g node data :
  let c := vn_color (html_node g node data) in
  (c = "#FF6B6B" ↔ has_out g node ∧ ¬ has_in g node) ∧
  (c = "#66BB6A" ↔ has_in g node ∧ ¬ has_out g node) ∧
  (c = "#FFA726" ↔ (has_out g node ↔ has_in g node)).
Proof.
  cbn. pose proof (node_roles_spec g node) as Hspec.
  set (roles := default ∅ (node_roles g !! node)) in *.
  assert ("sender" ∈ roles ↔ has_out g node) as Hs.
  { rewrite Hspec. split; [intros [[_ ?]|[[=] _]]; done|by left]. }
  assert ("receiver" ∈ roles ↔ has_in g node) as Hr.
  { rewrite Hspec. split; [intros [[[=] _]|[_ ?]]; done|by right]. }
  assert (∀ r, r ∈ roles → r = "sender" ∨ r = "receiver") as Hsub.
  { intros r. rewrite Hspec. tauto. }
  assert (roles = {["sender"]} ↔ "sender" ∈ roles ∧ "receiver" ∉ roles) as Hred.
  { split; [intros ->; set_solver|]. intros [? ?]. apply set_eq. intros r.
    rewrite elem_of_singleton. split; [|by intros ->].
    intros Hin. destruct (Hsub r Hin) as [->| ->]; done. }
  assert (roles = {["receiver"]} ↔ "receiver" ∈ roles ∧ "sender" ∉ roles) as Hgreen.
  { split; [intros ->; set_solver|]. intros [? ?]. apply set_eq. intros r.
    rewrite elem_of_singleton. split; [|by intros ->].
    intros Hin. destruct (Hsub r Hin) as [->| ->]; done. }
  destruct color_codes_differ as (Hrg & Hro & Hgo).
  rewrite <- Hs, <- Hr. unfold node_color.
  destruct (decide ("sender" ∈ roles)) as [H1|H1],
           (decide ("receiver" ∈ roles)) as [H2|H2];
    destruct (decide (roles = {["sender"]})) as [E1|E1];
    destruct (decide (roles = {["receiver"]})) as [E2|E2];
    try (apply Hred in E1); try (apply Hgreen in E2);
    try (exfalso; tauto);
    try (exfalso; apply E1, Hred; tauto); try (exfalso; apply E2, Hgreen; tauto);
    split_and!; split; try tauto; try done; try congruence.
Qed.

(** The character does not occur in the string. *)
Fixpoint free_of (c : ascii) (s : string) : Prop :=
  match s with
  | EmptyString => True
  | String c' s' => c' ≠ c ∧ free_of c s'
  end.

Lemma split_at_separator (c : ascii) (s s' r r' : string) :
  free_of c s → free_of c s' →
  (s ++ String c r = s' ++ String c r')%string → s = s' ∧ r = r'.
Proof.
  revert s'. induction s as [|x s IH]; intros [|x' s']; cbn; intros Hs Hs' Heq.
  - by injection Heq as ->.
  - injection Heq as <- _. by destruct Hs' as [[] _].
  - injection Heq as -> _. by destruct Hs as [[] _].
  - injection Heq as -> Heq. destruct Hs as [_ Hs], Hs' as [_ Hs'].
    destruct (IH s' Hs Hs' Heq) as [-> ->]. done.
Qed.

Lemma edge_id_injective u v t u' v' t' :
  free_of "_" u → free_of "_" v → free_of "_" u' → free_of "_" v' →
  edge_id u v t = edge_id u' v' t' → u = u' ∧ v = v' ∧ t = t'.
Proof.
  unfold edge_id. intros Hu Hv Hu' Hv' Heq.
  destruct (split_at_separator "_" u u' _ _ Hu Hu' Heq) as [-> Heq'].
  destruct (split_at_separator "_" v v' _ _ Hv Hv' Heq') as [-> ->]. done.
Qed.

(** X9.  When no address of the graph contains an underscore, the edges of
    the page have pairwise different identifiers: two entries with the same
    identifier are the same entry. *)
Theorem page_edge_ids_are_unique g :
  (∀ u v, (u, v) ∈ dom (adj g) → free_of "_" u ∧ free_of "_" v) →
  ∀ e1 e2, e1 ∈ html_edges g → e2 ∈ html_edges g → ve_id e1 = ve_id e2 → e1 = e2.
Proof.
  intros Hfree e1 e2 H1 H2 Hid. unfold html_edges in *.
  apply list_elem_of_fmap in H1 as ([[u1 v1] d1] & -> & H1).
  apply list_elem_of_fmap in H2 as ([[u2 v2] d2] & -> & H2).
  apply elem_of_map_to_list in H1, H2. cbn in *.
  destruct (Hfree u1 v1 (elem_of_dom_2 _ _ _ H1)) as [Hu1 Hv1].
  destruct (Hfree u2 v2 (elem_of_dom_2 _ _ _ H2)) as [Hu2 Hv2].
  destruct (edge_id_injective _ _ _ _ _ _ Hu1 Hv1 Hu2 Hv2 Hid) as (-> & -> & _).
  rewrite H1 in H2. by injection H2 as ->.
Qed.

(** X10.  The page has one entry for every node and one for every edge of
    the graph, and when both ends of every edge are nodes of the graph (as
    they are after a build), the two ends of every edge of the page are
    identifiers of nodes of the page. *)
Theorem page_edges_join_page_nodes g :
  (∀ u v, (u, v) ∈ dom (adj g) → u ∈ dom (nodes g) ∧ v ∈ dom (nodes g)) →
  length (html_nodes g) = size (nodes g) ∧
  length (html_edges g) = size (adj g) ∧
  ∀ e, e ∈ html_edges g →
    (∃ n, n ∈ html_nodes g ∧ vn_id n = ve_from e) ∧
    (∃ n, n ∈ html_nodes g ∧ vn_id n = ve_to e).
Proof.
  intros Hends. unfold html_nodes, html_edges. rewrite !length_fmap, !length_map_to_list.
  split_and!; try done.
  intros e He. apply list_elem_of_fmap in He as ([[u v] d] & -> & He).
  apply elem_of_map_to_list in He. cbn in *.
  destruct (Hends u v (elem_of_dom_2 _ _ _ He)) as [[du Hu]%elem_of_dom [dv Hv]%elem_of_dom].
  split.
  - exists (html_node g u du). split; [|done].
    apply list_elem_of_fmap. exists (u, du). split; [done|]. by apply elem_of_map_to_list.
  - exists (html_node g v dv). split; [|done].
    apply list_elem_of_fmap. exists (v, dv). split; [done|]. by apply elem_of_map_to_list.
Qed.

End HtmlExport.

(** * Worked examples

    The examples read the code against [sample_lib], on the sample ledgers. *)

#[local] Existing Instance sample_lib.

(** The end-to-end scenario: ["tx1"] expanded at depth 1 with a maximal
    depth of 1. *)
Definition run_tx1 : outcome * analyzer :=
  @_process_transaction sample_lib (reliable ledger_tx1) 1 "tx1" 1 1 new_analyzer.

Lemma exhausted_depth_no_lookup_witness :
  (1 ≠ 0)%Z ∧ (1 ≤ 1)%Z ∧
  ((∀ rcp, SelectSpending rcp ∉ issued new_analyzer (snd run_tx1)) ∧
   issued new_analyzer (snd run_tx1) `prefix_of` head_queries "tx1" ∧
   visited_transactions (snd run_tx1) ⊆ {["tx1"]} ∪ visited_transactions new_analyzer) ∧
  (fst run_tx1) = Returned ∧
  map_to_list (adj (G (snd run_tx1))) =
    [("A", "C", {| tx_id := "tx1"; value := SqlInt 2; date := "2024-01-01" |});
     ("A", "B", {| tx_id := "tx1"; value := SqlInt 3; date := "2024-01-01" |})] ∧
  wallet_balances (snd run_tx1) !! "A" = Some (-10)%float ∧
  wallet_balances (snd run_tx1) !! "B" = Some 3%float ∧
  wallet_balances (snd run_tx1) !! "C" = Some 2%float ∧
  size (wallet_balances (snd run_tx1)) = 3 ∧
  executed (snd run_tx1) = head_queries "tx1".
Proof.
  split; [lia|]. split; [lia|]. split.
  - apply (@exhausted_depth_no_lookup sample_lib (reliable ledger_tx1) 1 "tx1" 1 1 new_analyzer);
      lia.
  - vm_compute. repeat split; reflexivity.
Defined.

(** C5 as stated fails in its own scenario: no successor lookup is executed
    for the outputs [B] and [C] of ["tx1"]. *)
Lemma no_lookup_at_depth_bound_counterexample :
  executed (snd run_tx1) = [SelectTransact "tx1"; SelectInputs "tx1"; SelectOutputs "tx1"] ∧
  (SelectSpending (Some "B") ∉ executed (snd run_tx1)) ∧
  (SelectSpending (Some "C") ∉ executed (snd run_tx1)).
Proof.
  assert (executed (snd run_tx1) = [SelectTransact "tx1"; SelectInputs "tx1"; SelectOutputs "tx1"])
    as Hrun by (vm_compute; reflexivity).
  rewrite Hrun. split; [done|]. split; intros Hin; repeat (apply elem_of_cons in Hin as [[=]|Hin]);
    by apply elem_of_nil in Hin.
Qed.

Lemma no_outputs_only_marks_visited_witness :
  select_outputs (db (reliable ledger_no_output)) "z1" = [] ∧
  ("z1" ∉ visited_transactions new_analyzer) ∧
  let r := @_process_transaction sample_lib (reliable ledger_no_output) 1 "z1" 1 0
             new_analyzer in
  (fst r) = Returned ∧ G (snd r) = G new_analyzer ∧
  wallet_balances (snd r) = wallet_balances new_analyzer ∧
  visited_transactions (snd r) = {["z1"]} ∪ visited_transactions new_analyzer ∧
  ∀ rcp, SelectSpending rcp ∉ issued new_analyzer (snd r).
Proof.
  assert (select_outputs (db (reliable ledger_no_output)) "z1" = []) as Hout by reflexivity.
  assert ("z1" ∉ visited_transactions new_analyzer) as Hnew by (cbn; set_solver).
  split; [exact Hout|]. split; [exact Hnew|].
  exact (@no_outputs_only_marks_visited sample_lib (reliable ledger_no_output) 0 "z1" 1 0
           new_analyzer Hout Hnew).
Defined.

(** Two transactions from [A] to [B], both reached from the wallet [A]. *)
Definition run_repeat : outcome * analyzer :=
  @build_graph sample_lib (reliable ledger_repeat) 3 "A" 0 new_analyzer.

(** C3 as stated fails: both transactions are expanded, and the finished
    graph holds one edge from [A] to [B], with the attributes of ["t2"]
    only. *)
Lemma one_edge_per_pair_counterexample :
  (fst run_repeat) = Returned ∧
  elements (visited_transactions (snd run_repeat)) = ["t1"; "t2"] ∧
  map_to_list (adj (G (snd run_repeat))) =
    [("A", "B", {| tx_id := "t2"; value := SqlInt 4; date := "2024-02-02" |})] ∧
  size (adj (G (snd run_repeat))) ≠ 2.
Proof. vm_compute. repeat split; try reflexivity. discriminate. Qed.

(** The pair of ["t1"], then the pair of ["t2"], emitted on a new analyzer. *)
Definition after_t1 : analyzer :=
  (@emit_pair sample_lib "t1" "2024-01-01" (Some "A", SqlInt 3) (Some "B", SqlInt 3)
     new_analyzer).2.

Definition after_t2 : analyzer :=
  (@emit_pair sample_lib "t2" "2024-02-02" (Some "A", SqlInt 4) (Some "B", SqlInt 4)
     after_t1).2.

Lemma edge_is_replaced_witness :
  @emit_pair sample_lib "t2" "2024-02-02" (Some "A", SqlInt 4) (Some "B", SqlInt 4) after_t1
    = (Returned, after_t2) ∧
  adj (G after_t1) !! ("A", "B") =
    Some {| tx_id := "t1"; value := SqlInt 3; date := "2024-01-01" |} ∧
  (adj (G after_t2) !! ("A", "B") =
     Some {| tx_id := "t2"; value := SqlInt 4; date := "2024-02-02" |} ∧
   (∀ k, k ≠ ("A", "B") → adj (G after_t2) !! k = adj (G after_t1) !! k) ∧
   (is_Some (adj (G after_t1) !! ("A", "B")) →
    size (adj (G after_t2)) = size (adj (G after_t1)))).
Proof.
  assert (@emit_pair sample_lib "t2" "2024-02-02" (Some "A", SqlInt 4) (Some "B", SqlInt 4)
            after_t1 = (Returned, after_t2)) as Hrun by reflexivity.
  split; [exact Hrun|]. split; [reflexivity|].
  exact (@edge_is_replaced sample_lib "t2" "2024-02-02" "A" (SqlInt 4) "B" (SqlInt 4)
           after_t1 after_t2 Hrun).
Defined.



Definition ring_fresh : outcome * analyzer :=
  @build_graph sample_lib (reliable ledger_ring) 4 "A" 0 new_analyzer.


(** A configuration whose target is a transaction hash. *)
Definition config_hash64 : config := {| Target := Some hash64; Depth := Some "0" |}.

Lemma main_rejects_hash_of_64_witness :
  Target config_hash64 = Some hash64 ∧ String.length hash64 = 64 ∧
  @main sample_lib 1 config_hash64 (Some (reliable ledger_tx1)) = InputError.
Proof.
  split; [reflexivity|]. split; [reflexivity|].
  exact (@main_rejects_hash_of_64 sample_lib 1 config_hash64 (Some (reliable ledger_tx1))
           hash64 eq_refl eq_refl).
Defined.

(** The transaction ["f1"]: two inputs of the address [A], three outputs. *)
Definition run_fan : outcome * analyzer :=
  @_process_transaction sample_lib (reliable ledger_fan) 1 "f1" 1 1 new_analyzer.

(** C1 as stated fails: ["f1"] has 2 input records and 3 output records and
    its expansion leaves 3 edges, not 6; the edge to [B] was written twice. *)
Lemma cross_product_edge_count_counterexample :
  fst run_fan = Returned ∧
  length (select_inputs ledger_fan "f1") = 2 ∧
  length (select_outputs ledger_fan "f1") = 3 ∧
  map_to_list (adj (G (snd run_fan))) =
    [("A", "C", {| tx_id := "f1"; value := SqlInt 2; date := "2024-03-05" |});
     ("A", "B", {| tx_id := "f1"; value := SqlInt 1; date := "2024-03-05" |});
     ("A", "D", {| tx_id := "f1"; value := SqlInt 3; date := "2024-03-05" |})] ∧
  size (adj (G (snd run_fan))) ≠ 2 * 3.
Proof. vm_compute. repeat split; try reflexivity. discriminate. Qed.

(** The transaction ["f2"]: two inputs and three outputs of five addresses. *)
Definition fan_inputs : list (string * sqlval) := [("A", SqlInt 4); ("E", SqlInt 2)].
Definition fan_outputs : list (string * sqlval) :=
  [("B", SqlInt 1); ("C", SqlInt 2); ("D", SqlInt 3)].

Definition after_fan : analyzer :=
  foldl (λ a p, @pair_step sample_lib "f2" "2024-03-05" p.1 p.2 a)
    (entered "f2" (head_queries "f2") new_analyzer) (list_prod fan_inputs fan_outputs).

Lemma cross_product_emission_witness :
  reaches_emission (reliable ledger_fan_distinct) "f2" new_analyzer
    (tx_row "f2" "2024-03-05 10:20:30" 6) "2024-03-05" ∧
  select_inputs ledger_fan_distinct "f2" = rows fan_inputs ∧
  select_outputs ledger_fan_distinct "f2" = rows fan_outputs ∧
  Forall (λ p, convertible p.2) fan_inputs ∧
  Forall (λ p, convertible p.2) fan_outputs ∧
  @expand_head sample_lib (reliable ledger_fan_distinct) "f2" new_analyzer
    = (Returned, after_fan, Some (rows fan_outputs)) ∧
  size (adj (G after_fan)) = 6 ∧
  adj (G after_fan) !! ("E", "C") =
    Some {| tx_id := "f2"; value := SqlInt 2; date := "2024-03-05" |} ∧
  default 0%float (wallet_balances after_fan !! "A") = (-12)%float ∧
  default 0%float (wallet_balances after_fan !! "E") = (-6)%float ∧
  default 0%float (wallet_balances after_fan !! "D") = 6%float.
Proof.
  assert (reaches_emission (reliable ledger_fan_distinct) "f2" new_analyzer
            (tx_row "f2" "2024-03-05 10:20:30" 6) "2024-03-05") as Hr.
  { repeat split; reflexivity. }
  assert (Forall (λ p, @convertible sample_lib p.2) fan_inputs) as Hins.
  { repeat constructor; eexists; reflexivity. }
  assert (Forall (λ p, @convertible sample_lib p.2) fan_outputs) as Houts.
  { repeat constructor; eexists; reflexivity. }
  destruct (@cross_product_emission sample_lib (reliable ledger_fan_distinct) "f2"
              new_analyzer _ _ fan_inputs fan_outputs Hr eq_refl eq_refl Hins Houts)
    as (Hhead & Hlen & _ & Hedge & Hsize & Hbal).
  split; [exact Hr|]. split; [reflexivity|]. split; [reflexivity|].
  split; [exact Hins|]. split; [exact Houts|]. split; [exact Hhead|].
  assert (NoDup fan_inputs.*1) as Hnd_in by (apply (bool_decide_unpack _); vm_compute; exact I).
  assert (NoDup fan_outputs.*1) as Hnd_out by (apply (bool_decide_unpack _); vm_compute; exact I).
  unfold after_fan. split.
  { etrans; [apply (Hsize Hnd_in Hnd_out)|reflexivity].
    intros inp out _ _. apply lookup_empty. }
  split.
  { pose proof (Hedge Hnd_out ("E", SqlInt 2) ("C", SqlInt 2)
                  ltac:(apply list_elem_of_further, list_elem_of_here)
                  ltac:(apply list_elem_of_further, list_elem_of_here)) as He.
    cbn [fst snd] in He. exact He. }
  split_and!; (etrans; [apply Hbal|vm_compute; reflexivity]).
Defined.

(** The transaction ["m1"], whose input record has no recipient. *)
Definition run_null_recipient : outcome * analyzer :=
  _process_transaction (reliable ledger_null_recipient) 1 "m1" 1 0 new_analyzer.

Lemma edges_join_addresses_of_one_transaction_witness :
  edges_ok (reliable ledger_null_recipient) new_analyzer ∧
  edges_ok (reliable ledger_null_recipient) (snd run_null_recipient) ∧
  fst run_null_recipient = Raised ValueError ∧
  adj (G (snd run_null_recipient)) = ∅.
Proof.
  split; [apply new_analyzer_edges_ok|]. split; [|by vm_compute].
  exact (@edges_join_addresses_of_one_transaction sample_lib (reliable ledger_null_recipient)
           1 "m1" 1 0 new_analyzer (new_analyzer_edges_ok _)).
Defined.

(** The ring, traversed from ["t1"] without depth bound, and with a maximal
    depth of 2. *)
Definition run_ring : outcome * analyzer :=
  _process_transaction (reliable ledger_ring) 4 "t1" 1 0 new_analyzer.

Definition run_ring_depth2 : outcome * analyzer :=
  _process_transaction (reliable ledger_ring) 4 "t1" 1 2 new_analyzer.

Lemma traversal_terminates_and_expands_once_witness :
  (size (({["t1"]} ∪ spenders ledger_ring) ∖ visited_transactions new_analyzer) < 4)%nat ∧
  fst run_ring ≠ Starved ∧
  elements (visited_transactions (snd run_ring)) = ["t3"; "t1"; "t2"] ∧
  NoDup (filter (λ q, is_Some (about q)) (issued new_analyzer (snd run_ring))) ∧
  _process_transaction (reliable ledger_ring) 1 "t1" 1 0 (snd run_ring)
    = (Returned, snd run_ring).
Proof.
  assert (size (({["t1"]} ∪ spenders ledger_ring) ∖ visited_transactions new_analyzer) < 4)%nat
    as Hfuel by (apply Nat.ltb_lt; vm_compute; reflexivity).
  destruct (@traversal_terminates_and_expands_once sample_lib (reliable ledger_ring) 4 "t1" 1 0
              new_analyzer) as (Hends & _ & Honce & _ & _ & Hagain).
  split; [exact Hfuel|]. split; [exact (Hends Hfuel)|].
  split; [vm_compute; reflexivity|]. split; [exact Honce|].
  apply (Hagain ltac:(lia) 0%nat 1%Z 0%Z).
Defined.

Lemma ring_successor_t1_t2 : successor (reliable ledger_ring) "t1" "t2".
Proof.
  split.
  - exists (tx_row "t1" "2024-01-01 00:00:00" 5), "2024-01-01". split; reflexivity.
  - exists (Some "B", SqlInt 5). split; vm_compute; apply list_elem_of_here.
Qed.

Lemma ring_successor_t2_t3 : successor (reliable ledger_ring) "t2" "t3".
Proof.
  split.
  - exists (tx_row "t2" "2024-01-02 00:00:00" 4), "2024-01-02". split; reflexivity.
  - exists (Some "C", SqlInt 4). split; vm_compute; apply list_elem_of_here.
Qed.

Lemma depth_bounding_witness :
  reliable_conn (reliable ledger_ring) ∧
  run_ring = (Returned, snd run_ring) ∧
  rtc (successor (reliable ledger_ring)) "t1" "t3" ∧
  "t3" ∈ visited_transactions (snd run_ring) ∧
  elements (visited_transactions (snd run_ring_depth2)) = ["t1"; "t2"] ∧
  within (reliable ledger_ring) (Z.to_nat (2 - 1)) "t1" "t2".
Proof.
  assert (reliable_conn (reliable ledger_ring)) as Hrel by (by intros n).
  assert (run_ring = (Returned, snd run_ring)) as Hrun by (vm_compute; reflexivity).
  assert (rtc (successor (reliable ledger_ring)) "t1" "t3") as Hreach.
  { eapply rtc_l; [apply ring_successor_t1_t2|].
    eapply rtc_l; [apply ring_successor_t2_t3|]. apply rtc_refl. }
  destruct (@depth_bounding sample_lib (reliable ledger_ring)) as (Hall & Hwithin & _ & _).
  split; [exact Hrel|]. split; [exact Hrun|]. split; [exact Hreach|].
  split; [exact (Hall Hrel 4 "t1" 1%Z new_analyzer (snd run_ring) eq_refl Hrun "t3" Hreach)|].
  split; [vm_compute; reflexivity|].
  apply (Hwithin 4 "t1" 1%Z 2%Z new_analyzer "t2"); [lia| |apply not_elem_of_empty].
  apply (bool_decide_unpack _). vm_compute. exact I.
Defined.





(** The wallet [X] on the ledger whose transaction ["n1"] has an input
    without value. *)
Definition run_null_value : outcome * analyzer :=
  build_graph (reliable ledger_null_value) 3 "X" 0 new_analyzer.


(** ** Examples for the further properties *)

(** The scenario ledger behind a connection whose first statement fails. *)
Definition broken_tx1 : connection :=
  {| db := ledger_tx1; sql_fails := λ n, bool_decide (n = 0) |}.

Lemma skipped_transaction_stays_visited_witness :
  ("tx1" ∉ visited_transactions new_analyzer) ∧
  skip_cause broken_tx1 "tx1" new_analyzer ∧
  let r := _process_transaction broken_tx1 1 "tx1" 1 0 new_analyzer in
  fst r = Returned ∧ G (snd r) = G new_analyzer ∧
  wallet_balances (snd r) = wallet_balances new_analyzer ∧
  visited_transactions (snd r) = {["tx1"]} ∪ visited_transactions new_analyzer ∧
  issued new_analyzer (snd r) `prefix_of` head_queries "tx1" ∧
  ∀ fuel' d' m', _process_transaction broken_tx1 (S fuel') "tx1" d' m' (snd r)
                 = (Returned, snd r).
Proof.
  assert ("tx1" ∉ visited_transactions new_analyzer) as Hnew by apply not_elem_of_empty.
  assert (skip_cause broken_tx1 "tx1" new_analyzer) as Hcause by (by left).
  split; [exact Hnew|]. split; [exact Hcause|].
  exact (@skipped_transaction_stays_visited sample_lib broken_tx1 0 "tx1" 1 0 new_analyzer
           Hnew Hcause).
Defined.

Lemma build_keeps_graph_and_balances_consistent_witness :
  well_formed new_analyzer ∧
  fst run_null_value = Raised TypeError ∧
  well_formed (snd run_null_value).
Proof.
  split; [apply new_analyzer_well_formed|]. split; [vm_compute; reflexivity|].
  exact (@build_keeps_graph_and_balances_consistent sample_lib (reliable ledger_null_value)
           3 "X" 0 new_analyzer new_analyzer_well_formed).
Defined.

Lemma ring_fresh_returned :
  build_graph (reliable ledger_ring) 4 "A" 0 new_analyzer = (Returned, snd ring_fresh).
Proof. vm_compute. reflexivity. Qed.

Lemma nodes_carry_their_balance_witness :
  build_graph (reliable ledger_ring) 4 "A" 0 new_analyzer = (Returned, snd ring_fresh) ∧
  finalises (reliable ledger_ring) "A" new_analyzer ∧
  ("A" ∈ dom (nodes (G (snd ring_fresh)))) ∧
  nodes (G (snd ring_fresh)) !! "A"
  = Some {| balance := Some (default 0%float (wallet_balances (snd ring_fresh) !! "A"));
            label := Some (node_label "A"
                             (default 0%float (wallet_balances (snd ring_fresh) !! "A"))) |} ∧
  node_label "A" (default 0%float (wallet_balances (snd ring_fresh) !! "A"))
  = "A...A" ++ String (ascii_of_nat 10) "Balance: -2.00000000 BTC".
Proof.
  assert (finalises (reliable ledger_ring) "A" new_analyzer) as Hfin by (by right).
  assert ("A" ∈ dom (nodes (G (snd ring_fresh)))) as Hnode.
  { apply elem_of_dom. vm_compute. by eexists. }
  split; [exact ring_fresh_returned|]. split; [exact Hfin|]. split; [exact Hnode|].
  split; [|vm_compute; reflexivity].
  exact (@nodes_carry_their_balance sample_lib (reliable ledger_ring) 4 "A" 0 new_analyzer
           (snd ring_fresh) ring_fresh_returned Hfin "A" Hnode).
Defined.

Lemma address_seeds_are_visited_witness :
  String.length "A" ≠ 64 ∧ fails_at (reliable ledger_ring) new_analyzer 0 = false ∧
  build_graph (reliable ledger_ring) 4 "A" 0 new_analyzer = (Returned, snd ring_fresh) ∧
  out_row "t3" "A" 3 ∈ OUTPUTS ledger_ring ∧
  "t3" ∈ visited_transactions (snd ring_fresh).
Proof.
  assert (String.length "A" ≠ 64) as Hlen by (cbn; lia).
  assert (out_row "t3" "A" 3 ∈ OUTPUTS ledger_ring) as Hrow.
  { cbn. apply list_elem_of_further, list_elem_of_further, list_elem_of_here. }
  split; [exact Hlen|]. split; [reflexivity|]. split; [exact ring_fresh_returned|].
  split; [exact Hrow|].
  apply (@address_seeds_are_visited sample_lib (reliable ledger_ring) 4 "A" 0 new_analyzer
           (snd ring_fresh) Hlen eq_refl ring_fresh_returned "t3").
  right. by exists (out_row "t3" "A" 3).
Defined.

(** An address of 34 characters, and a ledger in which it pays [B]. *)
Definition addr34 : string := "1A1zP1eP5QGefi2DMPTfTL5SLmv7DivfNa".

Definition ledger_wallet : ledger := {|
  TRANSACT := [tx_row "w1" "2024-05-06 07:08:09" 5];
  INPUTS := [in_row "w1" addr34 5];
  OUTPUTS := [out_row "w1" "B" 5]
|}.

Definition config_wallet : config := {| Target := Some addr34; Depth := Some "2" |}.

Definition built_wallet : analyzer :=
  (build_graph (reliable ledger_wallet) 3 addr34 2 new_analyzer).2.

Lemma main_builds_in_address_mode_witness :
  main 3 config_wallet (Some (reliable ledger_wallet)) = Exported built_wallet true ∧
  ∃ target max_depth conn,
    Target config_wallet = Some target ∧
    (String.length target = 34 ∨ String.length target = 62) ∧
    int_of_text (default "0" (Depth config_wallet)) = Some max_depth ∧
    Some (reliable ledger_wallet) = Some conn ∧
    build_graph conn 3 target max_depth new_analyzer = (Returned, built_wallet) ∧
    (true = true ↔ (max_depth < 3)%Z) ∧
    ∃ rest, executed built_wallet = SelectWallet target :: rest.
Proof.
  assert (main 3 config_wallet (Some (reliable ledger_wallet)) = Exported built_wallet true)
    as Hmain by (vm_compute; reflexivity).
  split; [exact Hmain|].
  exact (@main_builds_in_address_mode sample_lib 3 config_wallet
           (Some (reliable ledger_wallet)) built_wallet true Hmain).
Defined.

Lemma ledger_wallet_emission_safe : emission_safe ledger_wallet.
Proof.
  split; intros row Hrow; cbn in Hrow;
    repeat (apply elem_of_cons in Hrow as [->|Hrow]); try (by apply elem_of_nil in Hrow);
    (split; [by eexists|eexists; reflexivity]).
Qed.

(** The ledger of the wallet behind a connection on which every statement
    but the first fails. *)
Definition unreliable_wallet : connection :=
  {| db := ledger_wallet; sql_fails := λ n, bool_decide (n ≠ 0) |}.

Lemma main_exports_on_a_safe_ledger_witness :
  Target config_wallet = Some addr34 ∧
  (String.length addr34 = 34 ∨ String.length addr34 = 62) ∧
  int_of_text (default "0" (Depth config_wallet)) = Some 2%Z ∧
  emission_safe (db unreliable_wallet) ∧
  (size (candidates unreliable_wallet addr34) < 3)%nat ∧
  ∃ a, main 3 config_wallet (Some unreliable_wallet) = Exported a (negb (3 <=? 2)%Z) ∧
       build_graph unreliable_wallet 3 addr34 2 new_analyzer = (Returned, a).
Proof.
  assert (size (candidates unreliable_wallet addr34) < 3)%nat as Hfuel
    by (apply Nat.ltb_lt; vm_compute; reflexivity).
  split; [reflexivity|]. split; [by left|]. split; [reflexivity|].
  split; [exact ledger_wallet_emission_safe|]. split; [exact Hfuel|].
  exact (@main_exports_on_a_safe_ledger sample_lib 3 config_wallet unreliable_wallet addr34 2
           eq_refl (or_introl eq_refl) eq_refl ledger_wallet_emission_safe Hfuel).
Defined.

(** The graph of the ring. *)
Definition ring_graph : DiGraph := G (snd ring_fresh).

Lemma ring_graph_edges u v :
  (u, v) ∈ dom (adj ring_graph) → (u, v) ∈ [("C", "A"); ("A", "B"); ("B", "C")].
Proof.
  intros [d Hd]%elem_of_dom. apply elem_of_map_to_list in Hd.
  assert (map_to_list (adj ring_graph) =
            [("C", "A", {| tx_id := "t3"; value := SqlInt 3; date := "2024-01-03" |});
             ("A", "B", {| tx_id := "t1"; value := SqlInt 5; date := "2024-01-01" |});
             ("B", "C", {| tx_id := "t2"; value := SqlInt 4; date := "2024-01-02" |})])
    as Hlist by (vm_compute; reflexivity).
  rewrite Hlist in Hd. clear Hlist.
  apply elem_of_cons in Hd as [Heq|Hd].
  { injection Heq as Hu Hv _. subst u v. apply list_elem_of_here. }
  apply elem_of_cons in Hd as [Heq|Hd].
  { injection Heq as Hu Hv _. subst u v. apply list_elem_of_further, list_elem_of_here. }
  apply elem_of_cons in Hd as [Heq|Hd].
  { injection Heq as Hu Hv _. subst u v.
    apply list_elem_of_further, list_elem_of_further, list_elem_of_here. }
  apply elem_of_nil in Hd. destruct Hd.
Qed.

(** The pairs of the list, one by one. *)
Lemma ring_graph_edges_cases (P : string → string → Prop) :
  P "C" "A" → P "A" "B" → P "B" "C" → ∀ u v, (u, v) ∈ dom (adj ring_graph) → P u v.
Proof.
  intros H1 H2 H3 u v Huv%ring_graph_edges.
  apply elem_of_cons in Huv as [Heq|Huv]; [by injection Heq as -> ->|].
  apply elem_of_cons in Huv as [Heq|Huv]; [by injection Heq as -> ->|].
  apply elem_of_cons in Huv as [Heq|Huv]; [by injection Heq as -> ->|].
  apply elem_of_nil in Huv. destruct Huv.
Qed.

Lemma ring_graph_no_underscore u v :
  (u, v) ∈ dom (adj ring_graph) → free_of "_" u ∧ free_of "_" v.
Proof.
  revert u v. apply ring_graph_edges_cases; cbn; split_and!; done.
Qed.

Lemma page_edge_ids_are_unique_witness :
  (∀ u v, (u, v) ∈ dom (adj ring_graph) → free_of "_" u ∧ free_of "_" v) ∧
  (∀ float_repr e1 e2,
     e1 ∈ html_edges float_repr ring_graph → e2 ∈ html_edges float_repr ring_graph →
     ve_id e1 = ve_id e2 → e1 = e2) ∧
  edge_id "a_b" "c" "t" = edge_id "a" "b_c" "t".
Proof.
  split; [exact ring_graph_no_underscore|]. split; [|reflexivity].
  intros float_repr.
  exact (page_edge_ids_are_unique float_repr ring_graph ring_graph_no_underscore).
Defined.

Lemma ring_graph_ends_are_nodes u v :
  (u, v) ∈ dom (adj ring_graph) → u ∈ dom (nodes ring_graph) ∧ v ∈ dom (nodes ring_graph).
Proof.
  revert u v.
  apply ring_graph_edges_cases; split; apply elem_of_dom; vm_compute; by eexists.
Qed.

Lemma page_edges_join_page_nodes_witness :
  (∀ u v, (u, v) ∈ dom (adj ring_graph) →
          u ∈ dom (nodes ring_graph) ∧ v ∈ dom (nodes ring_graph)) ∧
  (∀ float_repr,
     length (html_nodes ring_graph) = size (nodes ring_graph) ∧
     length (html_edges float_repr ring_graph) = size (adj ring_graph) ∧
     ∀ e, e ∈ html_edges float_repr ring_graph →
       (∃ n, n ∈ html_nodes ring_graph ∧ vn_id n = ve_from e) ∧
       (∃ n, n ∈ html_nodes ring_graph ∧ vn_id n = ve_to e)) ∧
  size (nodes ring_graph) = 3 ∧ size (adj ring_graph) = 3.
Proof.
  split; [exact ring_graph_ends_are_nodes|]. split; [|by vm_compute].
  intros float_repr.
  exact (page_edges_join_page_nodes float_repr ring_graph ring_graph_ends_are_nodes).
Defined.
